(** * i18n-ally: the configuration module ([Config]) and the message
    formatter ([i18n]), embedded from the TypeScript sources.

    The file follows the sources top-down: JavaScript values and the
    operators the code applies to them ([||], [??], [typeof], [===]), the
    editor's layered settings store behind [workspace.getConfiguration],
    [Config.getConfig] / [Config.setConfig], the getters built on them, and
    [i18n.format] / [i18n.t]. *)

From Stdlib Require Import ZArith Lia Bool Ascii.
From stdpp Require Import base option list strings gmap pretty.
From Equations Require Import Equations.

Local Open Scope Z_scope.
#[local] Set Warnings "-register-all,-clear-no-such-hyp".

(** ** JavaScript values *)

(** The values a setting or a format argument can hold.  Numbers are the
    integer-valued ones; [JObj] is an object or function whose content the
    modelled code never inspects.  A setting is parsed from JSON, so an
    object found there is a plain one. *)
Inductive JsVal : Type :=
| JUndefined
| JNull
| JBool (b : bool)
| JNum (n : Z)
| JStr (s : string)
| JArr (xs : list JsVal)
| JObj.

(** ToBoolean: what [if (v)], [!v] and [v || w] test. *)
Definition truthy (v : JsVal) : bool :=
  match v with
  | JUndefined | JNull => false
  | JBool b => b
  | JNum n => negb (n =? 0)
  | JStr s => negb (String.eqb s "")
  | JArr _ | JObj => true
  end.

(** [typeof v !== 'undefined'], [v !== undefined] *)
Definition is_defined (v : JsVal) : bool :=
  match v with
  | JUndefined => false
  | _ => true
  end.

(** [a || b] *)
Definition js_or (a b : JsVal) : JsVal := if truthy a then a else b.

(** [a ?? b] *)
Definition js_coalesce (a b : JsVal) : JsVal :=
  match a with
  | JUndefined | JNull => b
  | _ => a
  end.

(** [v === s] for a string [s] *)
Definition strict_eq_str (v : JsVal) (s : string) : bool :=
  match v with
  | JStr t => String.eqb t s
  | _ => false
  end.

(** Exceptions the modelled code can raise. *)
Inductive JsError : Type :=
| TypeError (msg : string).

Inductive result (A : Type) : Type :=
| Ok (a : A)
| Throw (e : JsError).
Arguments Ok {A} a.
Arguments Throw {A} e.

Definition rbind {A B : Type} (r : result A) (k : A -> result B) : result B :=
  match r with
  | Ok a => k a
  | Throw e => Throw e
  end.

Notation "x <-! r ; k" := (rbind r (fun x => k))
  (at level 100, r at next level, right associativity).

(** ** The settings store behind [workspace.getConfiguration] *)

(** The two configuration sections the module reads. *)
Inductive Namespace : Type :=
| EXT_NAMESPACE
| EXT_LEGACY_NAMESPACE.

(** One section of the settings: the user (global) level, the workspace
    level and the workspace-folder levels.  A read returns the most specific
    level that defines the key; the folder level takes part only when a
    scope is given. *)
Record Settings : Type := mkSettings {
  user_level : gmap string JsVal;
  workspace_level : gmap string JsVal;
  folder_level : gmap string (gmap string JsVal)
}.

(** [getConfiguration(section, scope).get(key)] *)
Definition folder_lookup (st : Settings) (scope : option string) (key : string)
  : option JsVal :=
  match scope with
  | Some folder =>
      match folder_level st !! folder with
      | Some m => m !! key
      | None => None
      end
  | None => None
  end.

(** A key is looked up by its whole dotted name.  The module reads and
    writes leaf settings only (no key it uses extends another one by a
    dotted name), so the object the editor would assemble for the parent of
    a dotted key is not modelled. *)
Definition cfg_get (st : Settings) (scope : option string) (key : string) : JsVal :=
  match folder_lookup st scope key with
  | Some v => v
  | None =>
      match workspace_level st !! key with
      | Some v => v
      | None => default JUndefined (user_level st !! key)
      end
  end.

(** The level [update(key, value, isGlobal)] writes to. *)
Definition target_level (isGlobal : bool) (st : Settings) : gmap string JsVal :=
  if isGlobal then user_level st else workspace_level st.

(** Writing [undefined] removes the key from the level. *)
Definition write_level (key : string) (value : JsVal) (m : gmap string JsVal)
  : gmap string JsVal :=
  match value with
  | JUndefined => delete key m
  | _ => <[key := value]> m
  end.

(** [getConfiguration(section).update(key, value, isGlobal)] *)
Definition cfg_update (st : Settings) (key : string) (value : JsVal) (isGlobal : bool)
  : Settings :=
  if isGlobal
  then mkSettings (write_level key value (user_level st)) (workspace_level st) (folder_level st)
  else mkSettings (user_level st) (write_level key value (workspace_level st)) (folder_level st).

(** One call of [update], as the store saw it. *)
Record UpdateCall : Type := mkUpdateCall {
  uc_namespace : Namespace;
  uc_key : string;
  uc_value : JsVal;
  uc_isGlobal : bool
}.

(** The editor's configuration: both sections, and the [update] calls made
    so far, oldest first. *)
Record Workspace : Type := mkWorkspace {
  ext : Settings;
  legacy : Settings;
  history : list UpdateCall
}.

Definition ws_update (ws : Workspace) (ns : Namespace) (key : string) (value : JsVal)
  (isGlobal : bool) : Workspace :=
  let call := mkUpdateCall ns key value isGlobal in
  match ns with
  | EXT_NAMESPACE =>
      mkWorkspace (cfg_update (ext ws) key value isGlobal) (legacy ws) (history ws ++ [call])
  | EXT_LEGACY_NAMESPACE =>
      mkWorkspace (ext ws) (cfg_update (legacy ws) key value isGlobal) (history ws ++ [call])
  end.

(** ** Strings and arrays: the library calls the module makes *)

(** [xs.join(sep)] on strings *)
Fixpoint join (sep : string) (xs : list string) : string :=
  match xs with
  | [] => ""
  | [x] => x
  | x :: rest => x +:+ sep +:+ join sep rest
  end.

(** [s.split(sep)] for a one-character separator: the pieces between the
    separators, the empty ones included; never the empty list. *)
Fixpoint split (sep : ascii) (s : string) : list string :=
  match s with
  | EmptyString => [""]
  | String c rest =>
      if Ascii.eqb c sep then "" :: split sep rest
      else match split sep rest with
           | piece :: pieces => String c piece :: pieces
           | [] => [String c ""]
           end
  end.

Fixpoint string_mem (c : ascii) (chars : string) : bool :=
  match chars with
  | EmptyString => false
  | String d rest => Ascii.eqb c d || string_mem c rest
  end.

Fixpoint string_map (f : ascii -> ascii) (s : string) : string :=
  match s with
  | EmptyString => ""
  | String c rest => String (f c) (string_map f rest)
  end.

Fixpoint string_forall (p : ascii -> bool) (s : string) : bool :=
  match s with
  | EmptyString => true
  | String c rest => p c && string_forall p rest
  end.

Fixpoint drop_while {A : Type} (p : A -> bool) (xs : list A) : list A :=
  match xs with
  | [] => []
  | x :: rest => if p x then drop_while p rest else xs
  end.

(** lodash [trimEnd(string, chars)]: walks back from the end while the
    character is one of [chars]. *)
Definition trimEnd (s chars : string) : string :=
  String.string_of_list_ascii
    (rev (drop_while (fun c => string_mem c chars) (rev (String.list_ascii_of_string s)))).

Definition backslash : ascii := Ascii.ascii_of_nat 92.
Definition slash : ascii := Ascii.ascii_of_nat 47.
Definition comma : ascii := Ascii.ascii_of_nat 44.

(** [s.replace(/\\/g, '/')] *)
Definition replace_backslashes (s : string) : string :=
  string_map (fun c => if Ascii.eqb c backslash then slash else c) s.

(** [i => trimEnd(i, '/\\').replace(/\\/g, '/')], the callback both
    locale-path readers map over the list. *)
Definition normalize_path (i : string) : string :=
  replace_backslashes (trimEnd i "/\").

(** lodash [uniq]: the values in order, each kept at its first occurrence. *)
Definition uniq (xs : list string) : list string :=
  fold_left (fun result x => if bool_decide (x ∈ result) then result else result ++ [x])
            xs [].

(** [String(v)] (the abstract ToString): an array prints its elements
    separated by commas, [null] and [undefined] elements as nothing.  A
    number prints as its decimal digits, which is what the engine prints for
    the integers up to 2^53 - 1 in magnitude (beyond them it rounds, and from
    10^21 on it prints an exponent); [JObj] prints as a plain object does,
    one with no [toString] of its own. *)
Fixpoint js_to_string (v : JsVal) : string :=
  match v with
  | JUndefined => "undefined"
  | JNull => "null"
  | JBool true => "true"
  | JBool false => "false"
  | JNum n => pretty n
  | JStr s => s
  | JArr xs =>
      join ","
        (map (fun x => match x with
                       | JUndefined | JNull => ""
                       | _ => js_to_string x
                       end) xs)
  | JObj => "[object Object]"
  end.

(** lodash [toString]: [null] and [undefined] are the empty string, an
    array is its elements (each through [baseToString]) joined by commas. *)
Fixpoint baseToString (v : JsVal) : string :=
  match v with
  | JStr s => s
  | JArr xs => join "," (map baseToString xs)
  | _ => js_to_string v
  end.

Definition lodash_toString (v : JsVal) : string :=
  match v with
  | JUndefined | JNull => ""
  | _ => baseToString v
  end.

(** ** Tag systems *)

(** A registered tag system, as far as [Config] uses it: its [normalize]
    method, applied to (locale, fallback, strict); an omitted argument is
    [undefined]. *)
Record TagSystem : Type := mkTagSystem {
  normalize : JsVal -> JsVal -> JsVal -> JsVal
}.

(** *** The tag systems the specification describes *)

Module SpecTags.

(** Modelled from the spec: the canonical tag of section 3, "LocaleTag:
    canonical representation { language, script?, region?, raw }"; the
    [tagSystems] module that builds it is not among the sources.  The three
    subtags are kept case-folded, [raw] is the input as given. *)
Record LocaleTag : Type := mkLocaleTag {
  language : string;
  script : option string;
  region : option string;
  raw : string
}.

(** Modelled from the spec: the "casing rules" of section 4.1, one per
    subtag. *)
Inductive Casing : Type := Lowercase | Uppercase | Titlecase.

(** Modelled from the spec: a tag system is the "separator and casing rules"
    its canonical form is rendered with (section 4.1); the registered
    systems themselves are missing from the sources. *)
Record TagRules : Type := mkTagRules {
  separator : ascii;
  language_case : Casing;
  script_case : Casing;
  region_case : Casing
}.

Definition is_upper (c : ascii) : bool :=
  let n := nat_of_ascii c in (65 <=? n)%nat && (n <=? 90)%nat.

Definition is_lower (c : ascii) : bool :=
  let n := nat_of_ascii c in (97 <=? n)%nat && (n <=? 122)%nat.

Definition is_decimal (c : ascii) : bool :=
  let n := nat_of_ascii c in (48 <=? n)%nat && (n <=? 57)%nat.

Definition to_lower (c : ascii) : ascii :=
  if is_upper c then ascii_of_nat (nat_of_ascii c + 32) else c.

Definition to_upper (c : ascii) : ascii :=
  if is_lower c then ascii_of_nat (nat_of_ascii c - 32) else c.

Definition hyphen : ascii := ascii_of_nat 45.
Definition underscore : ascii := ascii_of_nat 95.

(** Modelled from the spec: the "separators (`_`, `-`)" of section 4.1. *)
Definition is_separator (c : ascii) : bool :=
  Ascii.eqb c hyphen || Ascii.eqb c underscore.

(** Modelled from the spec: the subtags of an input, the pieces between
    separators (section 4.1, "language subtag"). *)
Fixpoint subtags (s : string) : list string :=
  match s with
  | EmptyString => [""]
  | String c rest =>
      if is_separator c then "" :: subtags rest
      else match subtags rest with
           | piece :: pieces => String c piece :: pieces
           | [] => [String c ""]
           end
  end.

(** Modelled from the spec: which subtag is the language, the script and
    the region of section 3, by the shapes of BCP-47, the default system of
    section 4.1, on case-folded text: a language is two or three letters, a
    script four letters, a region two letters or three digits. *)
Definition is_language (s : string) : bool :=
  string_forall is_lower s && (Nat.eqb (String.length s) 2 || Nat.eqb (String.length s) 3).

Definition is_script (s : string) : bool :=
  string_forall is_lower s && Nat.eqb (String.length s) 4.

Definition is_region (s : string) : bool :=
  (string_forall is_lower s && Nat.eqb (String.length s) 2)
  || (string_forall is_decimal s && Nat.eqb (String.length s) 3).

(** Modelled from the spec: "canonicalizes a free-form locale string into a
    structured tag (language, script, region)" (section 2), for inputs
    "with only a language subtag, with region but no script, and with
    non-standard separators" (section 4.1).  [None]: the input is no valid
    locale string. *)
Definition parse_tag (input : string) : option LocaleTag :=
  match map (string_map to_lower) (subtags input) with
  | [l] =>
      if is_language l then Some (mkLocaleTag l None None input) else None
  | [l; x] =>
      if is_language l && is_script x then Some (mkLocaleTag l (Some x) None input)
      else if is_language l && is_region x then Some (mkLocaleTag l None (Some x) input)
      else None
  | [l; sc; r] =>
      if is_language l && is_script sc && is_region r
      then Some (mkLocaleTag l (Some sc) (Some r) input)
      else None
  | _ => None
  end.

Definition apply_case (k : Casing) (s : string) : string :=
  match k with
  | Lowercase => string_map to_lower s
  | Uppercase => string_map to_upper s
  | Titlecase =>
      match s with
      | EmptyString => ""
      | String c rest => String (to_upper c) (string_map to_lower rest)
      end
  end.

(** Modelled from the spec: "toCanonicalForm(tag) -> string renders using
    separator and casing rules of the selected tag system" (section 4.1). *)
Definition toCanonicalForm (rules : TagRules) (tag : LocaleTag) : string :=
  join (String (separator rules) "")
    (apply_case (language_case rules) (language tag)
     :: option_list (apply_case (script_case rules) <$> script tag)
     ++ option_list (apply_case (region_case rules) <$> region tag)).

(** Modelled from the spec: the "unresolved" marker of section 4.1,
    spelled as the sentinel "unknown" tag of section 7. *)
Definition unresolved : JsVal := JStr "unknown".

(** Modelled from the spec: "normalize(input, fallback?, strict?)" of
    section 4.1, in the string form [Config] passes on: the canonical form
    of a valid input; otherwise the fallback when one is given, else the
    unresolved marker; it never throws.  The spec gives [strict] no effect
    on a valid input. *)
Definition spec_normalize (rules : TagRules) (locale fallback strict : JsVal) : JsVal :=
  match locale with
  | JStr input =>
      match parse_tag input with
      | Some tag => JStr (toCanonicalForm rules tag)
      | None => match fallback with JUndefined => unresolved | _ => fallback end
      end
  | _ => match fallback with JUndefined => unresolved | _ => fallback end
  end.

(** Modelled from the spec: the tag system with the given rules, as the
    object [Config] calls [normalize] on. *)
Definition tag_system (rules : TagRules) : TagSystem :=
  mkTagSystem (spec_normalize rules).

(** Modelled from the spec: the default system "bcp47", and an alternate
    scheme with "legacy underscore-style tags" (section 4.1). *)
Definition bcp47 : TagRules := mkTagRules hyphen Lowercase Titlecase Uppercase.
Definition underscored : TagRules := mkTagRules underscore Lowercase Titlecase Uppercase.

(** Modelled from the spec: a table of the two, the default under the name
    section 4.1 gives it. *)
Definition TagSystems (name : string) : option TagSystem :=
  if String.eqb name "bcp47" then Some (tag_system bcp47)
  else if String.eqb name "legacy" then Some (tag_system underscored)
  else None.

(** Modelled from the spec: two inputs "denoting the same locale under
    different casing/separator conventions" (section 8) are equal once
    letters are case-folded and both separators are read as one. *)
Definition fold_char (c : ascii) : ascii :=
  if is_separator c then hyphen else to_lower c.

Definition same_locale (s1 s2 : string) : Prop :=
  string_map fold_char s1 = string_map fold_char s2.

(** Modelled from the spec: the "valid locale strings" of section 8. *)
Definition valid_locale (s : string) : Prop := is_Some (parse_tag s).

End SpecTags.

(** ** [Config.getConfig] and [Config.setConfig] *)

Module Config.

(** [getConfig(key, scope)]: the extension's section first, the legacy
    section when that read is [undefined]. *)
Definition getConfig (ws : Workspace) (key : string) (scope : option string) : JsVal :=
  let config := cfg_get (ext ws) scope key in
  match config with
  | JUndefined => cfg_get (legacy ws) None key
  | _ => config
  end.

(** [setConfig(key, value, isGlobal)], run to completion. *)
Definition setConfig (ws : Workspace) (key : string) (value : JsVal) (isGlobal : bool)
  : Workspace :=
  let ws1 :=
    if truthy (cfg_get (legacy ws) None key)
    then ws_update ws EXT_LEGACY_NAMESPACE key JUndefined isGlobal
    else ws in
  ws_update ws1 EXT_NAMESPACE key value isGlobal.

Section Getters.

(** The [TagSystems] table of the [tagSystems] module: the tag system
    registered under a name, if any. *)
Variable TagSystems : string -> option TagSystem.

(** [get tagSystem]; [None] is [undefined]. *)
Definition tagSystem (ws : Workspace) : option TagSystem :=
  let tag := js_or (getConfig ws "languageTagSystem" None) (JStr "bcp47") in
  TagSystems (js_to_string tag).

(** [normalizeLocale(locale, fallback, strict)]; calling a method of
    [undefined] raises. *)
Definition normalizeLocale (ws : Workspace) (locale fallback strict : JsVal)
  : result JsVal :=
  match tagSystem ws with
  | Some ts => Ok (normalize ts locale fallback strict)
  | None => Throw (TypeError "Cannot read properties of undefined (reading 'normalize')")
  end.

(** [get displayLanguage] *)
Definition displayLanguage (ws : Workspace) : result JsVal :=
  normalizeLocale ws (js_or (getConfig ws "displayLanguage" None) (JStr "")) JUndefined JUndefined.

(** [get sourceLanguage]: the right operands of [||] are evaluated only
    when the left one is falsy. *)
Definition sourceLanguage (ws : Workspace) : result JsVal :=
  source <-! normalizeLocale ws (js_or (getConfig ws "sourceLanguage" None) (JStr ""))
                             (JStr "") JUndefined;
  if truthy source then Ok source
  else display <-! displayLanguage ws; Ok (js_or display (JStr "en")).

End Getters.

(** [get ignoredLocales] *)
Definition ignoredLocales (ws : Workspace) : list JsVal :=
  let ignored := getConfig ws "ignoredLocales" None in
  if negb (truthy ignored) then []
  else match ignored with
       | JStr _ => [ignored]
       | JArr xs => xs
       | _ => []
       end.

(** [set ignoredLocales] *)
Definition set_ignoredLocales (ws : Workspace) (value : list JsVal) : Workspace :=
  setConfig ws "ignoredLocales" (JArr value) true.

(** [get disablePathParsing] *)
Definition disablePathParsing (ws : Workspace) : JsVal :=
  js_coalesce (getConfig ws "disablePathParsing" None) (JBool false).

(** [get _keyStyle] *)
Definition _keyStyle (ws : Workspace) : JsVal :=
  let style := js_or (getConfig ws "keystyle" None) (JStr "auto") in
  if strict_eq_str style "auto" && truthy (disablePathParsing ws)
  then JStr "flat"
  else style.

(** [get translateParallels] *)
Definition translateParallels (ws : Workspace) : JsVal :=
  js_or (getConfig ws "translate.parallels" None) (JNum 5).

(** [ignored.includes(locale)] *)
Definition includes (xs : list JsVal) (locale : string) : bool :=
  existsb (fun i => strict_eq_str i locale) xs.

(** [toggleLocaleVisibility(locale, visible)]; [visible = None] is an
    omitted (or [null]) argument. *)
Definition toggleLocaleVisibility (ws : Workspace) (locale : string) (visible : option bool)
  : Workspace :=
  let ignored := ignoredLocales ws in
  let visible :=
    match visible with
    | None => negb (includes ignored locale)
    | Some b => b
    end in
  if negb visible
  then set_ignoredLocales ws (ignored ++ [JStr locale])
  else set_ignoredLocales ws (filter (fun i => negb (strict_eq_str i locale)) ignored).

(** The body shared, word for word, by [get _localesPaths] and
    [getLocalesPathsInScope]: [None] is the bare [return].  [trimEnd] reads
    each element of an array through lodash [toString]; a truthy value that
    is neither a string nor an array has no [map]. *)
Definition read_localesPaths (paths : JsVal) : result (option (list string)) :=
  if negb (truthy paths) then Ok None
  else
    localesPaths <-!
      match paths with
      | JStr s => Ok (split comma s)
      | JArr xs => Ok (map lodash_toString xs)
      | _ => Throw (TypeError "localesPaths.map is not a function")
      end;
    Ok (Some (map normalize_path localesPaths)).

(** [get _localesPaths] *)
Definition _localesPaths (ws : Workspace) : result (option (list string)) :=
  read_localesPaths (getConfig ws "localesPaths" None).

(** [set _localesPaths] *)
Definition set__localesPaths (ws : Workspace) (paths : option (list string)) : Workspace :=
  setConfig ws "localesPaths"
    match paths with
    | Some ps => JArr (map JStr ps)
    | None => JUndefined
    end
    false.

(** [getLocalesPathsInScope(scope)] *)
Definition getLocalesPathsInScope (ws : Workspace) (scope : string)
  : result (option (list string)) :=
  read_localesPaths (getConfig ws "localesPaths" (Some scope)).

(** [updateLocalesPaths(paths)] *)
Definition updateLocalesPaths (ws : Workspace) (paths : list string) : result Workspace :=
  current <-! _localesPaths ws;
  Ok (set__localesPaths ws (Some (uniq (default [] current ++ paths)))).

End Config.

(** ** [i18n]: the message formatter *)

Module i18n.

(** [\d] *)
Definition is_digit (c : ascii) : bool :=
  let n := nat_of_ascii c in (48 <=? n)%nat && (n <=? 57)%nat.

(** The longest run of digits [s] starts with, and what follows it. *)
Fixpoint take_digits (s : string) : string * string :=
  match s with
  | String c rest =>
      if is_digit c
      then let '(ds, after) := take_digits rest in (String c ds, after)
      else ("", s)
  | EmptyString => ("", "")
  end.

Definition open_brace : ascii := ascii_of_nat 123.
Definition close_brace : ascii := ascii_of_nat 125.

(** A match of [/{(\d+)}/] at the very start of [s]: the captured digits
    and the text after the closing brace. *)
Definition match_placeholder (s : string) : option (string * string) :=
  match s with
  | String c rest =>
      if Ascii.eqb c open_brace then
        match take_digits rest with
        | (String d ds, String e after) =>
            if Ascii.eqb e close_brace then Some (String d ds, after) else None
        | _ => None
        end
      else None
  | EmptyString => None
  end.

(** The text a match covers: [match] in the callback. *)
Definition placeholder (number : string) : string :=
  String open_brace (number +:+ String close_brace "").

Definition inspect {A : Type} (a : A) : {b : A | a = b} := exist _ a eq_refl.

(** [str.replace(/{(\d+)}/g, callback)]: the matches are found left to
    right, each is replaced by what the callback returns for it, the search
    resumes after the match, and the text between matches is copied.  An
    exception of the callback ends the call. *)
Equations replace_placeholders (callback : string -> string -> result string) (str : string)
  : result string by wf (String.length str) lt :=
  replace_placeholders callback str with inspect (match_placeholder str) := {
    | exist _ (Some (number, after)) _ =>
        replacement <-! callback (placeholder number) number;
        tail <-! replace_placeholders callback after;
        Ok (replacement +:+ tail)
    | exist _ None _ with str := {
      | EmptyString => Ok ""
      | String c rest =>
          tail <-! replace_placeholders callback rest;
          Ok (String c tail) } }.
Next Obligation.
  (* the text after a match is shorter than the text the match starts *)
  assert (Hdigits : forall s ds rest,
             take_digits s = (ds, rest) ->
             String.length s = (String.length ds + String.length rest)%nat).
  { induction s as [|c s IH]; intros ds rest; simpl.
    - intros [= <- <-]. reflexivity.
    - destruct (is_digit c).
      + destruct (take_digits s) as [ds' rest'] eqn:E. intros [= <- <-].
        simpl. f_equal. by apply IH.
      + intros [= <- <-]. reflexivity. }
  match goal with H : match_placeholder _ = Some _ |- _ => revert H end.
  destruct str as [|c tail]; simpl; [done|].
  destruct (Ascii.eqb c open_brace); [|done].
  destruct (take_digits tail) as [[|d ds] [|x rest]] eqn:E; try done.
  destruct (Ascii.eqb x close_brace); [|done].
  intros [= <- <-]. apply Hdigits in E. simpl in E. lia.
Qed.

(** The number a digit string denotes. *)
Definition digits_value (ds : string) : N :=
  fold_left (fun acc c => (10 * acc + (N_of_ascii c - 48))%N)
            (String.list_ascii_of_string ds) 0%N.

(** A digit string is an array index when it is the canonical decimal
    form of its number: no leading zero, except for zero itself. *)
Definition canonical_index (ds : string) : bool :=
  match ds with
  | EmptyString => false
  | String c rest => negb (Ascii.eqb c "0"%char) || String.eqb rest ""
  end.

(** [args[number]] for the captured digit string [number]: a property read
    by name, which reaches an element only through a canonical index. *)
Definition array_get (args : list JsVal) (number : string) : JsVal :=
  if canonical_index number && (digits_value number <? N.of_nat (length args))%N
  then default JUndefined (args !! N.to_nat (digits_value number))
  else JUndefined.

(** [v.toString()]: reading a property of [null] or [undefined] raises.
    For [JObj] this is the inherited method of a plain object; an object
    with a [toString] of its own, or with none, is not among the values. *)
Definition toString (v : JsVal) : result string :=
  match v with
  | JUndefined => Throw (TypeError "Cannot read properties of undefined (reading 'toString')")
  | JNull => Throw (TypeError "Cannot read properties of null (reading 'toString')")
  | _ => Ok (js_to_string v)
  end.

(** [format(str, args)] *)
Definition format (str : string) (args : list JsVal) : result string :=
  replace_placeholders
    (fun match_ number =>
       if is_defined (array_get args number)
       then toString (array_get args number)
       else Ok match_)
    str.

(** The members every object inherits from [Object.prototype]. *)
Definition object_prototype_members : list string :=
  ["constructor"; "hasOwnProperty"; "isPrototypeOf"; "propertyIsEnumerable";
   "toLocaleString"; "toString"; "valueOf"; "__proto__";
   "__defineGetter__"; "__defineSetter__"; "__lookupGetter__"; "__lookupSetter__"].

(** [this.messages[key]]: the loaded message; for a key that is not
    loaded, the inherited member of that name (a function or an object, here
    [JObj]) if there is one, else [undefined]. *)
Definition messages_get (messages : gmap string string) (key : string) : JsVal :=
  match messages !! key with
  | Some text => JStr text
  | None =>
      if bool_decide (key ∈ object_prototype_members) then JObj else JUndefined
  end.

(** [t(key, ...args)] over the loaded [messages]; [format] calls
    [str.replace], which only a string has. *)
Definition t (messages : gmap string string) (key : string) (args : list JsVal)
  : result JsVal :=
  let text := js_or (messages_get messages key) (JStr "") in
  if negb (Nat.eqb (length args) 0)
  then match text with
       | JStr str => formatted <-! format str args; Ok (JStr formatted)
       | _ => Throw (TypeError "str.replace is not a function")
       end
  else Ok text.

(** How [init] can fail: [readFileSync] finds no file, or [JSON.parse]
    rejects its content. *)
Inductive InitFailure : Type :=
| ENOENT (name : string)
| SyntaxError.

(** The file [init] reads for a display language: [existsSync] answers for
    a file name inside the extension's directory. *)
Definition nls_name (language : string) (existsSync : string -> bool) : string :=
  let name :=
    if String.eqb language "en" then "package.nls.json"
    else "package.nls." +:+ language +:+ ".json" in
  if negb (existsSync name) then "package.nls.json" else name.

(** [init(extensionPath)]: [files] are the files of the extension's
    directory by name, [JSON_parse] is [JSON.parse] ([None] when it raises);
    the result is the new [messages]. *)
Definition init (language : string) (files : gmap string string)
  (JSON_parse : string -> option (gmap string string))
  : InitFailure + gmap string string :=
  let name := nls_name language (fun n => bool_decide (is_Some (files !! n))) in
  match files !! name with
  | None => inl (ENOENT name)
  | Some content =>
      match JSON_parse content with
      | Some messages => inr messages
      | None => inl SyntaxError
      end
  end.

End i18n.

(** ** [Config], continued: the getters that test a length, the review
    identity and the country map *)

Module ConfigRest.

Import Config.

Section Lengths.

(** What [.length] reads on a configured object: [undefined] when it has no
    such property. *)
Variable object_length : JsVal.

(** ToBoolean of [ids.length] for a truthy [ids]: a number or a boolean
    has no [length]. *)
Definition truthy_length (ids : JsVal) : bool :=
  match ids with
  | JStr s => negb (String.eqb s "")
  | JArr xs => negb (Nat.eqb (length xs) 0)
  | JObj => truthy object_length
  | _ => false
  end.

(** The body shared, word for word, by [get enabledFrameworks] and
    [get enabledParsers]. *)
Definition read_ids (ids : JsVal) : JsVal :=
  if negb (truthy ids) || negb (truthy_length ids) then JUndefined
  else match ids with
       | JStr _ => JArr [ids]
       | _ => ids
       end.

(** [get enabledFrameworks] *)
Definition enabledFrameworks (ws : Workspace) : JsVal :=
  read_ids (getConfig ws "enabledFrameworks" None).

(** [get enabledParsers] *)
Definition enabledParsers (ws : Workspace) : JsVal :=
  read_ids (getConfig ws "enabledParsers" None).

(** [get _regexUsageMatch]: falling off the end returns [undefined]. *)
Definition _regexUsageMatch (ws : Workspace) : JsVal :=
  let config := getConfig ws "regex.usageMatch" None in
  if truthy config && truthy_length config then config else JUndefined.

End Lengths.

(** The two memo fields of the class, and the commands [execSync] was
    given so far, oldest first. *)
Record ReviewCache : Type := mkReviewCache {
  _reviewUserName : option string;
  _reviewUserEmail : option string;
  executed : list string
}.

(** [!Config._reviewUserName]: unset, or the empty string. *)
Definition cache_empty (field : option string) : bool :=
  match field with
  | None => true
  | Some value => String.eqb value ""
  end.

Section Review.

(** The loaded messages of [i18n]. *)
Variable messages : gmap string string.

(** [execSync(command).toString().trim()] as the machine answers at the
    time of the call: the trimmed output, or an exception. *)
Variable execSync : string -> result string.

(** [get reviewUserName] *)
Definition reviewUserName (ws : Workspace) (st : ReviewCache) : result JsVal * ReviewCache :=
  let config := getConfig ws "review.user.name" None in
  if truthy config then (Ok config, st)
  else if cache_empty (_reviewUserName st) then
    let command := "git config user.name" in
    match execSync command with
    | Ok output =>
        (Ok (JStr output),
         mkReviewCache (Some output) (_reviewUserEmail st) (executed st ++ [command]))
    | Throw _ =>
        (i18n.t messages "review.unknown_user" [],
         mkReviewCache (_reviewUserName st) (_reviewUserEmail st) (executed st ++ [command]))
    end
  else (Ok (JStr (default "" (_reviewUserName st))), st).

(** [get reviewUserEmail] *)
Definition reviewUserEmail (ws : Workspace) (st : ReviewCache) : result JsVal * ReviewCache :=
  let config := getConfig ws "review.user.email" None in
  if truthy config then (Ok config, st)
  else if cache_empty (_reviewUserEmail st) then
    let command := "git config user.email" in
    match execSync command with
    | Ok output =>
        (Ok (JStr output),
         mkReviewCache (_reviewUserName st) (Some output) (executed st ++ [command]))
    | Throw _ =>
        (Ok (JStr ""),
         mkReviewCache (_reviewUserName st) (_reviewUserEmail st) (executed st ++ [command]))
    end
  else (Ok (JStr (default "" (_reviewUserEmail st))), st).

(** [get reviewUser]: the object literal reads [name], then [email]. *)
Definition reviewUser (ws : Workspace) (st : ReviewCache)
  : (result JsVal * result JsVal) * ReviewCache :=
  let '(name, st1) := reviewUserName ws st in
  let '(email, st2) := reviewUserEmail ws st1 in
  ((name, email), st2).

End Review.

(** [get regexKey]: [KEY_REG_ALL] and [KEY_REG_DEFAULT] are the two
    patterns of the [meta] module. *)
Definition regexKey (KEY_REG_ALL KEY_REG_DEFAULT : string) (ws : Workspace) : JsVal :=
  js_or (getConfig ws "regex.key" None)
    (js_or (getConfig ws "keyMatchRegex" None)
       (JStr (if truthy (disablePathParsing ws) then KEY_REG_ALL else KEY_REG_DEFAULT))).

(** [get localeCountryMap]: [Object.assign] copies every entry of the
    configured object (none when the option is [undefined]) into the shared
    default map and returns that map.  The result pairs the returned map
    with [DEFAULT_LOCALE_COUNTRY_MAP] as the call leaves it. *)
Definition localeCountryMap (configured : option (gmap string string))
  (DEFAULT_LOCALE_COUNTRY_MAP : gmap string string)
  : gmap string string * gmap string string :=
  let assigned := default ∅ configured ∪ DEFAULT_LOCALE_COUNTRY_MAP in
  (assigned, assigned).

End ConfigRest.

(** * Properties *)

Import Config.
Import i18n.

(** ** Vocabulary of the properties *)

(** *** Sample configurations *)

Definition no_settings : Settings := mkSettings ∅ ∅ ∅.

(** Nothing is configured anywhere. *)
Definition ws_empty : Workspace := mkWorkspace no_settings no_settings [].

(** The extension's section with the given user-level settings. *)
Definition ws_user (settings : list (string * JsVal)) : Workspace :=
  mkWorkspace (mkSettings (list_to_map settings) ∅ ∅) no_settings [].

(** A legacy section that still holds [keepFulfilled: false]. *)
Definition ws_legacy_false : Workspace :=
  mkWorkspace no_settings
    (mkSettings (list_to_map [("keepFulfilled", JBool false)]) ∅ ∅) [].

(** A table that registers one system, under ['bcp47']; its [normalize]
    returns the locale as it is given. *)
Definition only_bcp47 (name : string) : option TagSystem :=
  if String.eqb name "bcp47" then Some (mkTagSystem (fun locale _ _ => locale)) else None.

(** The style the specification's wording of C2 returns: ['flat'] when the
    configured keystyle is ['auto'] and path parsing is disabled, otherwise
    the configured style, or ['auto'] when none is configured. *)
Definition claimed_keyStyle (ws : Workspace) : JsVal :=
  let configured := getConfig ws "keystyle" None in
  if strict_eq_str configured "auto" && truthy (disablePathParsing ws)
  then JStr "flat"
  else match configured with
       | JUndefined => JStr "auto"
       | _ => configured
       end.

(** Duplicates removed, the first occurrence of each value kept. *)
Fixpoint dedup_first (xs : list string) : list string :=
  match xs with
  | [] => []
  | x :: rest => x :: filter (fun y => y <> x) (dedup_first rest)
  end.

(** One round of the loop of [uniq]. *)
Definition uniq_step (acc : list string) (x : string) : list string :=
  if bool_decide (x ∈ acc) then acc else acc ++ [x].

Definition unslash (c : ascii) : ascii := if Ascii.eqb c backslash then slash else c.
Definition is_slash (c : ascii) : bool := string_mem c "/\".

Definition comma_free (p : string) : Prop := string_mem comma p = false.

(** The list [set ignoredLocales] stored: the user-level value of the
    option in the extension's section. *)
Definition stored_ignoredLocales (ws : Workspace) : option JsVal :=
  user_level (ext ws) !! "ignoredLocales".

(** The entries of a list other than the locale, in order. *)
Definition others (locale : string) (xs : list JsVal) : list JsVal :=
  filter (fun i => negb (strict_eq_str i locale)) xs.

(** The last character of a string. *)
Definition last_char (s : string) : option ascii :=
  last (String.list_ascii_of_string s).

(** A digit sequence: what [\d+] can capture. *)
Definition is_number (ds : string) : bool :=
  negb (String.eqb ds "") && string_forall is_digit ds.

(** No match of the pattern starts anywhere in the text. *)
Fixpoint no_placeholder (s : string) : bool :=
  match s with
  | EmptyString => true
  | String c rest =>
      match match_placeholder s with
      | Some _ => false
      | None => no_placeholder rest
      end
  end.

(** A template cut at its placeholders: the text before each placeholder
    paired with the placeholder's digits, then the text after the last. *)
Fixpoint template_text (holes : list (string * string)) (ending : string) : string :=
  match holes with
  | [] => ending
  | (text, number) :: rest => text +:+ placeholder number +:+ template_text rest ending
  end.

(** The digit a character stands for, and one round of [digits_value]. *)
Definition digit_value (c : ascii) : N := (N_of_ascii c - 48)%N.

Definition digits_step (acc : N) (c : ascii) : N := (10 * acc + (N_of_ascii c - 48))%N.

(** The index below [n] whose decimal form is the digit text: the array
    index that the property name [number] denotes, if it denotes one. *)
Definition index_named (n : nat) (number : string) : option nat :=
  find (fun i => String.eqb (pretty i) number) (seq 0 n).

(** The element of [args] that the property name [number] reaches. *)
Definition named_entry (args : list JsVal) (number : string) : option JsVal :=
  match index_named (length args) number with
  | Some i => args !! i
  | None => None
  end.

(** The largest integer below which every integer is a number of its own
    (2^53 - 1); up to it a number prints as its plain decimal digits. *)
Definition MAX_SAFE_INTEGER : Z := 9007199254740991.

(** The values whose conversion to a string involves no object: strings,
    booleans, numbers, [null], [undefined], and arrays of such values. *)
Fixpoint object_free (v : JsVal) : bool :=
  match v with
  | JArr xs => forallb object_free xs
  | JObj => false
  | _ => true
  end.

(** The values that print as [js_to_string] says: the object-free values
    whose numbers are safe integers. *)
Fixpoint printable (v : JsVal) : bool :=
  match v with
  | JNum n => Z.abs n <=? MAX_SAFE_INTEGER
  | JArr xs => forallb printable xs
  | JObj => false
  | _ => true
  end.

(** What stands in place of the placeholder with the given digits: the
    placeholder itself when its digits reach no element, or an [undefined]
    one; the printed element otherwise, where [null] cannot be printed. *)
Definition replacement (args : list JsVal) (number : string) : result string :=
  match named_entry args number with
  | None | Some JUndefined => Ok (placeholder number)
  | Some JNull => Throw (TypeError "Cannot read properties of null (reading 'toString')")
  | Some v => Ok (js_to_string v)
  end.

Fixpoint fill (args : list JsVal) (holes : list (string * string)) (ending : string)
  : result string :=
  match holes with
  | [] => Ok ending
  | (text, number) :: rest =>
      printed <-! replacement args number;
      tail <-! fill args rest ending;
      Ok (text +:+ printed +:+ tail)
  end.

(** One key names a setting inside the other: it extends the other by a
    dot and a further name, as ['extract.ignored'] extends ['extract']. *)
Definition nested_keys (key key' : string) : bool :=
  String.prefix (key +:+ ".") key' || String.prefix (key' +:+ ".") key.

(** ** The embedding at work *)

Example split_keeps_empty_pieces : split comma "a,,b" = ["a"; ""; "b"].
Proof. reflexivity. Qed.

Example trimEnd_trailing_only : trimEnd "src\i18n/\/" "/\" = "src\i18n".
Proof. reflexivity. Qed.

Example normalize_path_windows : normalize_path "src\i18n\" = "src/i18n".
Proof. reflexivity. Qed.

Example uniq_first_occurrences : uniq ["b"; "a"; "b"; "c"; "a"] = ["b"; "a"; "c"].
Proof. reflexivity. Qed.

Example js_to_string_array :
  js_to_string (JArr [JNum 12; JNull; JStr "x"; JArr [JBool true; JUndefined]; JNum (-7)])
  = "12,,x,true,,-7".
Proof. reflexivity. Qed.

Example format_mixed :
  format "{0} of {1}: {2} {x} {01} {" [JStr "3"; JNum 10]
  = Ok "3 of 10: {2} {x} {01} {".
Proof. reflexivity. Qed.

Example format_does_not_rescan : format "{0}{1}" [JStr "{1}"; JStr "b"] = Ok "{1}b".
Proof. reflexivity. Qed.

Example spec_normalize_bcp47 :
  map (fun s => SpecTags.spec_normalize SpecTags.bcp47 (JStr s) JUndefined JUndefined)
      ["en"; "EN_us"; "zh-hans-cn"; "es_419"; "english"]
  = [JStr "en"; JStr "en-US"; JStr "zh-Hans-CN"; JStr "es-419"; JStr "unknown"].
Proof. reflexivity. Qed.

Example toggle_then_read :
  ignoredLocales (toggleLocaleVisibility (ws_user [("ignoredLocales", JStr "fr")]) "de" (Some false))
  = [JStr "fr"; JStr "de"].
Proof. reflexivity. Qed.

(** ** Reading and writing settings *)

Lemma truthy_coalesce_false (v : JsVal) : truthy (js_coalesce v (JBool false)) = truthy v.
Proof. by destruct v. Qed.

Lemma write_level_lookup key value (m : gmap string JsVal) :
  write_level key value m !! key = if is_defined value then Some value else None.
Proof.
  destruct value; simpl; rewrite ?lookup_delete_eq, ?lookup_insert_eq; done.
Qed.

Lemma write_level_delete key value (m : gmap string JsVal) :
  delete key (write_level key value m) = delete key m.
Proof.
  destruct value; simpl; rewrite ?delete_insert_eq, ?delete_delete_eq; done.
Qed.

Lemma target_level_cfg_update st key value isGlobal :
  target_level isGlobal (cfg_update st key value isGlobal)
  = write_level key value (target_level isGlobal st).
Proof. by destruct isGlobal. Qed.

Lemma other_level_cfg_update st key value isGlobal :
  target_level (negb isGlobal) (cfg_update st key value isGlobal)
  = target_level (negb isGlobal) st.
Proof. by destruct isGlobal. Qed.

Lemma folder_level_cfg_update st key value isGlobal :
  folder_level (cfg_update st key value isGlobal) = folder_level st.
Proof. by destruct isGlobal. Qed.

Lemma ext_setConfig ws key value isGlobal :
  ext (setConfig ws key value isGlobal) = cfg_update (ext ws) key value isGlobal.
Proof. unfold setConfig. by destruct (truthy _). Qed.

(** C1, as the code has it: [getConfig] returns the current section's
    value when that read is defined and the legacy section's value when it
    is [undefined].  [setConfig] writes the value at the level [isGlobal]
    selects in the current section (removing the key there when the value is
    [undefined]); before that write it removes the key from the same level
    of the legacy section exactly when the legacy read is truthy, and then
    leaves every other legacy setting alone; when the legacy read is falsy
    ([undefined], [null], [false], [0], the empty string) the legacy section
    is not touched and the write is the only [update] call. *)
Theorem setConfig_migrates_truthy_legacy
  (ws : Workspace) (key : string) (value : JsVal) (isGlobal : bool) (scope : option string) :
  let ws' := setConfig ws key value isGlobal in
  let clear := mkUpdateCall EXT_LEGACY_NAMESPACE key JUndefined isGlobal in
  let write := mkUpdateCall EXT_NAMESPACE key value isGlobal in
  getConfig ws key scope
  = (if is_defined (cfg_get (ext ws) scope key)
     then cfg_get (ext ws) scope key
     else cfg_get (legacy ws) None key)
  /\ target_level isGlobal (ext ws') !! key = (if is_defined value then Some value else None)
  /\ delete key (target_level isGlobal (ext ws')) = delete key (target_level isGlobal (ext ws))
  /\ (if truthy (cfg_get (legacy ws) None key)
      then history ws' = history ws ++ [clear; write]
           /\ target_level isGlobal (legacy ws')
              = delete key (target_level isGlobal (legacy ws))
           /\ target_level (negb isGlobal) (legacy ws')
              = target_level (negb isGlobal) (legacy ws)
           /\ folder_level (legacy ws') = folder_level (legacy ws)
      else history ws' = history ws ++ [write]
           /\ legacy ws' = legacy ws).
Proof.
  intros ws' clear write. subst ws' clear write.
  split; [|split; [|split]].
  - unfold getConfig. by destruct (cfg_get (ext ws) scope key).
  - by rewrite ext_setConfig, target_level_cfg_update, write_level_lookup.
  - by rewrite ext_setConfig, target_level_cfg_update, write_level_delete.
  - unfold setConfig. destruct (truthy (cfg_get (legacy ws) None key)); simpl.
    + rewrite <- app_assoc. simpl. split; [done|].
      rewrite target_level_cfg_update, other_level_cfg_update, folder_level_cfg_update.
      done.
    + done.
Qed.

(** C1 as the specification states it fails: a legacy [false] (a falsy
    value) survives a write of the same key; the only [update] call is
    the write to the current section. *)
Lemma setConfig_keeps_falsy_legacy :
  let ws' := setConfig ws_legacy_false "keepFulfilled" (JBool true) true in
  cfg_get (legacy ws_legacy_false) None "keepFulfilled" = JBool false
  /\ history ws' = [mkUpdateCall EXT_NAMESPACE "keepFulfilled" (JBool true) true]
  /\ user_level (legacy ws') !! "keepFulfilled" = Some (JBool false)
  /\ cfg_get (legacy ws') None "keepFulfilled" = JBool false.
Proof. vm_compute. auto. Qed.

(** ** Key style, parallelism, tag system *)



(** A keystyle configured as the empty string counts as none: the style in
    effect is ['auto'], so [_keyStyle] returns ['auto'] (the stated rule
    gives the empty string), and ['flat'] when disablePathParsing is set. *)
Example keyStyle_empty_string :
  _keyStyle (ws_user [("keystyle", JStr "")]) = JStr "auto"
  /\ claimed_keyStyle (ws_user [("keystyle", JStr "")]) = JStr ""
  /\ _keyStyle (ws_user [("keystyle", JStr ""); ("disablePathParsing", JBool true)])
     = JStr "flat".
Proof. vm_compute. auto. Qed.

(** C3, as the code has it: [translateParallels] returns the configured
    translate.parallels when it is truthy, so a non-zero number is returned
    as it is; it returns 5 when the option is not configured and also when
    it is configured as 0 (or another falsy value). *)
Theorem translateParallels_default (ws : Workspace) :
  match getConfig ws "translate.parallels" None with
  | JUndefined => translateParallels ws = JNum 5
  | JNum n => translateParallels ws = JNum (if n =? 0 then 5 else n)
  | v => translateParallels ws = if truthy v then v else JNum 5
  end.
Proof.
  unfold translateParallels, js_or.
  destruct (getConfig ws "translate.parallels" None) as [| |b|n|str|xs|]; simpl; try done.
  by destruct (n =? 0).
Qed.

(** C3 as the specification states it fails: a configured value of 0 is
    set, and 5 is returned. *)
Lemma translateParallels_zero :
  let ws := ws_user [("translate.parallels", JNum 0)] in
  getConfig ws "translate.parallels" None = JNum 0
  /\ translateParallels ws = JNum 5.
Proof. vm_compute. auto. Qed.

(** C5, as the code has it: with languageTagSystem not configured, or
    configured as the empty string (or another falsy value), [tagSystem] is
    the system registered as ['bcp47']; with a non-empty name configured it
    is the system registered under that name ([None] when there is none). *)
Theorem tagSystem_selected (TagSystems : string -> option TagSystem) (ws : Workspace) :
  match getConfig ws "languageTagSystem" None with
  | JUndefined => tagSystem TagSystems ws = TagSystems "bcp47"
  | JStr name =>
      tagSystem TagSystems ws = TagSystems (if String.eqb name "" then "bcp47" else name)
  | v => tagSystem TagSystems ws = TagSystems (if truthy v then js_to_string v else "bcp47")
  end.
Proof.
  unfold tagSystem, js_or.
  destruct (getConfig ws "languageTagSystem" None) as [| |b|n|name|xs|]; simpl; try done.
  - by destruct b.
  - by destruct (n =? 0).
  - by destruct (String.eqb name "").
Qed.

(** C5 as the specification states it fails: the empty string is
    configured, no system is registered under it, and the ['bcp47'] system
    is selected. *)
Lemma tagSystem_empty_name :
  let ws := ws_user [("languageTagSystem", JStr "")] in
  getConfig ws "languageTagSystem" None = JStr ""
  /\ only_bcp47 "" = None
  /\ tagSystem only_bcp47 ws = Some (mkTagSystem (fun locale _ _ => locale)).
Proof. repeat split; reflexivity. Qed.

(** ** Locale paths *)

Section Filter.

Context {A : Type} (P : A -> Prop) `{forall x, Decision (P x)}.

Lemma filter_keeps_all (l : list A) : (forall y, y ∈ l -> P y) -> filter P l = l.
Proof.
  induction l as [|a l IH]; intros Hall; [done|].
  rewrite filter_cons_True by (apply Hall; left).
  f_equal. apply IH. intros y Hy. apply Hall. by right.
Qed.

Lemma filter_keeps_none (l : list A) : (forall y, y ∈ l -> ~ P y) -> filter P l = [].
Proof.
  induction l as [|a l IH]; intros Hnone; [done|].
  rewrite filter_cons_False by (apply Hnone; left).
  apply IH. intros y Hy. apply Hnone. by right.
Qed.

End Filter.

Section Uniq.

Implicit Types (x y : string) (xs ys acc : list string).

Lemma elem_of_dedup_first x xs : x ∈ dedup_first xs <-> x ∈ xs.
Proof.
  induction xs as [|a xs IH]; simpl; [done|].
  rewrite !elem_of_cons, list_elem_of_filter, IH.
  destruct (decide (x = a)); naive_solver.
Qed.

Lemma NoDup_dedup_first xs : NoDup (dedup_first xs).
Proof.
  induction xs as [|a xs IH]; simpl; [constructor|].
  constructor.
  - rewrite list_elem_of_filter. naive_solver.
  - by apply NoDup_filter.
Qed.

Lemma filter_not_in_snoc acc x ys :
  filter (fun y => y ∉ acc ++ [x]) ys = filter (fun y => y ∉ acc) (filter (fun y => y <> x) ys).
Proof.
  rewrite list_filter_filter. apply list_filter_iff. intros y.
  rewrite elem_of_app, list_elem_of_singleton. naive_solver.
Qed.

Lemma filter_not_in_absorb acc x ys :
  x ∈ acc ->
  filter (fun y => y ∉ acc) (filter (fun y => y <> x) ys) = filter (fun y => y ∉ acc) ys.
Proof.
  intros Hx. rewrite list_filter_filter. apply list_filter_iff. intros y.
  naive_solver.
Qed.

(** The loop of [uniq], started from any result so far. *)
Lemma fold_uniq_step xs acc :
  fold_left uniq_step xs acc = acc ++ filter (fun y => y ∉ acc) (dedup_first xs).
Proof.
  revert acc. induction xs as [|a xs IH]; intros acc; simpl.
  - by rewrite app_nil_r.
  - rewrite IH. unfold uniq_step. rewrite filter_cons.
    case_bool_decide as Ha.
    + rewrite decide_False by naive_solver.
      by rewrite filter_not_in_absorb.
    + rewrite decide_True by done.
      rewrite <- app_assoc. simpl. by rewrite filter_not_in_snoc.
Qed.

Lemma uniq_dedup_first xs : uniq xs = dedup_first xs.
Proof.
  unfold uniq. change (fold_left uniq_step xs [] = dedup_first xs).
  rewrite fold_uniq_step. simpl.
  apply filter_keeps_all. intros y _. apply not_elem_of_nil.
Qed.

Lemma dedup_first_NoDup xs : NoDup xs -> dedup_first xs = xs.
Proof.
  induction 1 as [|a xs Ha _ IH]; simpl; [done|].
  rewrite IH. f_equal. apply filter_keeps_all. intros y Hy ->. done.
Qed.

Lemma uniq_app_absorb xs ys : NoDup xs -> ys ⊆ xs -> uniq (xs ++ ys) = xs.
Proof.
  intros Hnd Hsub. unfold uniq.
  change (fold_left uniq_step (xs ++ ys) [] = xs).
  rewrite fold_left_app.
  change (fold_left uniq_step xs []) with (uniq xs).
  rewrite uniq_dedup_first, dedup_first_NoDup by done.
  rewrite fold_uniq_step.
  rewrite filter_keeps_none; [by rewrite app_nil_r|].
  intros y Hy Hny. apply Hny, Hsub. by apply elem_of_dedup_first.
Qed.

End Uniq.

(** *** Normalized paths *)

Lemma string_map_as_list f s :
  String.list_ascii_of_string (string_map f s) = map f (String.list_ascii_of_string s).
Proof. induction s as [|c s IH]; simpl; [done|]. by rewrite IH. Qed.

Lemma normalize_path_as_list s :
  String.list_ascii_of_string (normalize_path s)
  = map unslash (rev (drop_while is_slash (rev (String.list_ascii_of_string s)))).
Proof.
  unfold normalize_path, replace_backslashes, trimEnd.
  rewrite string_map_as_list, String.list_ascii_of_string_of_list_ascii. done.
Qed.

Lemma unslash_not_slash c : is_slash c = false -> unslash c = c.
Proof.
  unfold is_slash, unslash. simpl.
  destruct (Ascii.eqb_spec c backslash) as [->|]; [|done].
  by vm_compute.
Qed.

Lemma unslash_idemp c : unslash (unslash c) = unslash c.
Proof.
  unfold unslash. destruct (Ascii.eqb_spec c backslash) as [->|Hc]; [done|].
  by rewrite (proj2 (Ascii.eqb_neq _ _) Hc).
Qed.

Lemma drop_while_unslash t :
  drop_while is_slash (map unslash (drop_while is_slash t))
  = map unslash (drop_while is_slash t).
Proof.
  induction t as [|c t IH]; simpl; [done|].
  destruct (is_slash c) eqn:Hc; [done|].
  simpl. by rewrite (unslash_not_slash c Hc), Hc.
Qed.

(** What the readers return is a fixed point of the normalization. *)
Lemma normalize_path_idemp s : normalize_path (normalize_path s) = normalize_path s.
Proof.
  rewrite <- (String.string_of_list_ascii_of_string (normalize_path (normalize_path s))).
  rewrite <- (String.string_of_list_ascii_of_string (normalize_path s)) at 2.
  f_equal.
  rewrite (normalize_path_as_list (normalize_path s)), !normalize_path_as_list.
  rewrite <- map_rev, rev_involutive, drop_while_unslash.
  rewrite !map_rev, map_map. f_equal. apply map_ext. intros c. apply unslash_idemp.
Qed.

Lemma map_normalize_path_fixed (ps : list string) :
  Forall (fun p => normalize_path p = p) ps -> map normalize_path ps = ps.
Proof. induction 1 as [|p ps Hp _ IH]; simpl; [done|]. by rewrite Hp, IH. Qed.

Lemma map_lodash_toString_JStr (ps : list string) : map lodash_toString (map JStr ps) = ps.
Proof. induction ps as [|p ps IH]; simpl; [done|]. by rewrite IH. Qed.

(** *** [updateLocalesPaths] *)

Lemma read_localesPaths_normalized paths (ps : list string) :
  read_localesPaths paths = Ok (Some ps) -> Forall (fun p => normalize_path p = p) ps.
Proof.
  unfold read_localesPaths. destruct (truthy paths); simpl; [|done].
  destruct paths as [| |b|n|str|xs|]; simpl; try done;
    intros [= <-]; apply Forall_map, Forall_forall; intros; apply normalize_path_idemp.
Qed.

Lemma getConfig_after_workspace_write ws key (value : JsVal) :
  is_defined value = true ->
  getConfig (setConfig ws key value false) key None = value.
Proof.
  intros Hdef. unfold getConfig. rewrite ext_setConfig.
  unfold cfg_get, cfg_update. simpl.
  replace (write_level key value (workspace_level (ext ws)) !! key) with (Some value)
    by (rewrite write_level_lookup, Hdef; done).
  by destruct value.
Qed.

Lemma legacy_setConfig ws key value isGlobal :
  legacy (setConfig ws key value isGlobal)
  = if truthy (cfg_get (legacy ws) None key)
    then cfg_update (legacy ws) key JUndefined isGlobal
    else legacy ws.
Proof. unfold setConfig. by destruct (truthy _). Qed.

Lemma cfg_update_same st key value isGlobal :
  cfg_update (cfg_update st key value isGlobal) key value isGlobal
  = cfg_update st key value isGlobal.
Proof.
  unfold cfg_update. destruct isGlobal; simpl; f_equal;
    destruct value; simpl; rewrite ?insert_insert_eq, ?delete_delete_eq; done.
Qed.

(** A second write of the same key at the same level leaves the legacy
    section as the first write left it. *)
Lemma legacy_setConfig_twice ws key value value' isGlobal :
  legacy (setConfig (setConfig ws key value isGlobal) key value' isGlobal)
  = legacy (setConfig ws key value isGlobal).
Proof.
  rewrite (legacy_setConfig (setConfig ws key value isGlobal)).
  rewrite (legacy_setConfig ws).
  destruct (truthy (cfg_get (legacy ws) None key)) eqn:Hlegacy.
  - rewrite cfg_update_same.
    by destruct (truthy (cfg_get (cfg_update _ _ _ _) _ _)).
  - by rewrite Hlegacy.
Qed.

Lemma ext_setConfig_twice ws key value isGlobal :
  ext (setConfig (setConfig ws key value isGlobal) key value isGlobal)
  = ext (setConfig ws key value isGlobal).
Proof. by rewrite !ext_setConfig, cfg_update_same. Qed.

(** C4, as the code has it: with P the list [_localesPaths] currently
    reads (empty when it reads nothing), [updateLocalesPaths(Q)] stores,
    at the workspace level, P followed by Q with every value kept at its
    first occurrence only, so the stored list has no value twice.  A second
    call whose paths are all in the stored list changes neither section of
    the settings, provided the paths Q of the first call were in the
    readers' normalized form (no trailing ['/'] or ['\'], no ['\']). *)
Theorem updateLocalesPaths_set_semantics
  (ws : Workspace) (current : option (list string)) (Q Q' : list string) :
  _localesPaths ws = Ok current ->
  let P := default [] current in
  let stored := dedup_first (P ++ Q) in
  exists ws1,
    updateLocalesPaths ws Q = Ok ws1
    /\ workspace_level (ext ws1) !! "localesPaths" = Some (JArr (map JStr stored))
    /\ NoDup stored
    /\ (Forall (fun q => normalize_path q = q) Q ->
        Q' ⊆ stored ->
        exists ws2,
          updateLocalesPaths ws1 Q' = Ok ws2
          /\ ext ws2 = ext ws1
          /\ legacy ws2 = legacy ws1).
Proof.
  intros Hcurrent P stored.
  exists (set__localesPaths ws (Some stored)).
  assert (Hnodup : NoDup stored) by apply NoDup_dedup_first.
  split; [|split; [|split]].
  - unfold updateLocalesPaths. rewrite Hcurrent. simpl.
    by rewrite uniq_dedup_first.
  - unfold set__localesPaths. rewrite ext_setConfig. simpl.
    by rewrite lookup_insert_eq.
  - done.
  - intros HQ Hsub.
    exists (set__localesPaths (set__localesPaths ws (Some stored)) (Some stored)).
    assert (Hnorm : Forall (fun p => normalize_path p = p) stored).
    { apply Forall_forall. intros p Hp.
      apply elem_of_dedup_first, elem_of_app in Hp as [Hp|Hp].
      - destruct current as [ps|]; [|by apply not_elem_of_nil in Hp].
        apply read_localesPaths_normalized in Hcurrent.
        by eapply Forall_forall in Hcurrent.
      - by eapply Forall_forall in HQ. }
    assert (Hread : _localesPaths (set__localesPaths ws (Some stored)) = Ok (Some stored)).
    { unfold _localesPaths, set__localesPaths.
      rewrite getConfig_after_workspace_write by done.
      unfold read_localesPaths. simpl.
      by rewrite map_lodash_toString_JStr, map_normalize_path_fixed. }
    split; [|split].
    + unfold updateLocalesPaths. rewrite Hread. simpl.
      by rewrite uniq_app_absorb.
    + apply ext_setConfig_twice.
    + apply legacy_setConfig_twice.
Qed.

Lemma updateLocalesPaths_set_semantics_witness :
  exists ws1 ws2,
    updateLocalesPaths ws_empty ["src/locales"; "i18n"; "src/locales"] = Ok ws1
    /\ workspace_level (ext ws1) !! "localesPaths"
       = Some (JArr [JStr "src/locales"; JStr "i18n"])
    /\ updateLocalesPaths ws1 ["i18n"] = Ok ws2
    /\ ext ws2 = ext ws1
    /\ legacy ws2 = legacy ws1.
Proof.
  destruct (updateLocalesPaths_set_semantics ws_empty None
              ["src/locales"; "i18n"; "src/locales"] ["i18n"] eq_refl)
    as (ws1 & Hfirst & Hstored & _ & Hagain).
  destruct Hagain as (ws2 & Hsecond & Hext & Hlegacy).
  - repeat constructor.
  - intros x Hx. apply list_elem_of_singleton in Hx as ->.
    vm_compute. right. left.
  - exists ws1, ws2. repeat split; assumption.
Defined.

(** C4 as the specification states it fails: a path added with a trailing
    ['/'] is stored as given; the next call reads it back trimmed, so adding
    the same path again stores a second entry. *)
Lemma updateLocalesPaths_trailing_slash :
  exists ws1 ws2,
    updateLocalesPaths ws_empty ["locales/"] = Ok ws1
    /\ workspace_level (ext ws1) !! "localesPaths" = Some (JArr [JStr "locales/"])
    /\ updateLocalesPaths ws1 ["locales/"] = Ok ws2
    /\ workspace_level (ext ws2) !! "localesPaths"
       = Some (JArr [JStr "locales"; JStr "locales/"]).
Proof.
  eexists _, _. split; [reflexivity|]. split; [reflexivity|].
  split; [vm_compute; reflexivity|]. vm_compute. reflexivity.
Qed.

(** *** The two shapes of the localesPaths option *)

Lemma split_comma_free sep p : string_mem sep p = false -> split sep p = [p].
Proof.
  induction p as [|c p IH]; simpl; [done|].
  rewrite Ascii.eqb_sym.
  destruct (Ascii.eqb c sep); simpl; [done|].
  intros Hp. by rewrite IH.
Qed.

Lemma split_app_separator sep p rest :
  string_mem sep p = false ->
  split sep (p +:+ String sep rest) = p :: split sep rest.
Proof.
  induction p as [|c p IH]; simpl.
  - by rewrite Ascii.eqb_refl.
  - rewrite (Ascii.eqb_sym sep c).
    destruct (Ascii.eqb c sep); simpl; [done|].
    intros Hp. by rewrite IH.
Qed.

Lemma split_join (ps : list string) :
  ps <> [] -> Forall comma_free ps -> split comma (join "," ps) = ps.
Proof.
  intros Hne Hfree. induction Hfree as [|p ps Hp Hps IH]; [done|].
  destruct ps as [|q ps]; simpl.
  - by apply split_comma_free.
  - change (split comma (p +:+ String comma (join "," (q :: ps))) = p :: q :: ps).
    rewrite split_app_separator by done. f_equal. by apply IH.
Qed.

(** C6, as the code has it: for every non-empty list of paths none of
    which contains a comma, and whose comma-joined string is not empty,
    [_localesPaths] reads the joined string and the array of the paths as
    the same list: each path with its trailing ['/'] and ['\'] trimmed and
    every ['\'] replaced by ['/']. *)
Theorem localesPaths_string_matches_array
  (ws_string ws_array : Workspace) (ps : list string) :
  Forall comma_free ps ->
  join "," ps <> "" ->
  getConfig ws_string "localesPaths" None = JStr (join "," ps) ->
  getConfig ws_array "localesPaths" None = JArr (map JStr ps) ->
  _localesPaths ws_string = Ok (Some (map normalize_path ps))
  /\ _localesPaths ws_array = Ok (Some (map normalize_path ps)).
Proof.
  intros Hfree Hjoin Hstring Harray. unfold _localesPaths.
  rewrite Hstring, Harray. unfold read_localesPaths. simpl.
  destruct (String.eqb_spec (join "," ps) "") as [|_]; [done|]. simpl.
  rewrite map_lodash_toString_JStr, split_join; [done| |done].
  intros ->. by apply Hjoin.
Qed.

Lemma localesPaths_string_matches_array_witness :
  _localesPaths (ws_user [("localesPaths", JStr "src\locales\,i18n/")])
  = Ok (Some ["src/locales"; "i18n"])
  /\ _localesPaths (ws_user [("localesPaths", JArr [JStr "src\locales\"; JStr "i18n/"])])
     = Ok (Some ["src/locales"; "i18n"]).
Proof.
  apply (localesPaths_string_matches_array
           (ws_user [("localesPaths", JStr "src\locales\,i18n/")])
           (ws_user [("localesPaths", JArr [JStr "src\locales\"; JStr "i18n/"])])
           ["src\locales\"; "i18n/"]).
  - repeat constructor.
  - discriminate.
  - reflexivity.
  - reflexivity.
Defined.

(** C6 as the specification states it fails: a path that contains a comma
    is one element of the array and two pieces of the string; and for the
    empty list the string reads as nothing while the array reads as the
    empty list. *)
Lemma localesPaths_comma_in_path :
  _localesPaths (ws_user [("localesPaths", JStr (join "," ["locales/a,b"]))])
  = Ok (Some ["locales/a"; "b"])
  /\ _localesPaths (ws_user [("localesPaths", JArr (map JStr ["locales/a,b"]))])
     = Ok (Some ["locales/a,b"])
  /\ _localesPaths (ws_user [("localesPaths", JStr (join "," []))]) = Ok None
  /\ _localesPaths (ws_user [("localesPaths", JArr (map JStr []))]) = Ok (Some []).
Proof. vm_compute. auto. Qed.

(** ** Hidden locales *)

Lemma stored_after_set ws value :
  stored_ignoredLocales (set_ignoredLocales ws value) = Some (JArr value).
Proof.
  unfold stored_ignoredLocales, set_ignoredLocales.
  rewrite ext_setConfig. simpl. apply lookup_insert_eq.
Qed.


Lemma others_idemp locale xs : others locale (others locale xs) = others locale xs.
Proof.
  unfold others. apply filter_keeps_all. intros y Hy.
  by apply list_elem_of_filter in Hy as [Hy _].
Qed.

Lemma others_snoc locale xs : others locale (xs ++ [JStr locale]) = others locale xs.
Proof.
  unfold others. rewrite filter_app, filter_cons_False, filter_nil, app_nil_r; [done|].
  simpl. rewrite String.eqb_refl. by intros [].
Qed.

Lemma includes_snoc locale xs : includes (xs ++ [JStr locale]) locale = true.
Proof.
  unfold includes. rewrite existsb_app. simpl.
  by rewrite String.eqb_refl, orb_true_r.
Qed.





(** ** Source language *)

Lemma truthy_not_empty (v : JsVal) : truthy v = true -> v <> JStr "".
Proof. by intros Hv ->. Qed.

(** C9: whenever the selected tag system exists, [sourceLanguage] returns
    the normalized configured sourceLanguage if that is not empty, else the
    normalized displayLanguage if that is not empty, else ['en']; what it
    returns is never empty (never falsy, so never the empty string).  With
    no tag system registered under the selected name, normalizing raises and
    nothing is returned. *)
Theorem sourceLanguage_never_empty (TagSystems : string -> option TagSystem) (ws : Workspace) :
  match tagSystem TagSystems ws with
  | Some ts =>
      let source :=
        normalize ts (js_or (getConfig ws "sourceLanguage" None) (JStr "")) (JStr "") JUndefined in
      let display :=
        normalize ts (js_or (getConfig ws "displayLanguage" None) (JStr "")) JUndefined JUndefined in
      let answer :=
        if truthy source then source else if truthy display then display else JStr "en" in
      displayLanguage TagSystems ws = Ok display
      /\ sourceLanguage TagSystems ws = Ok answer
      /\ truthy answer = true
      /\ answer <> JStr ""
  | None => exists e, sourceLanguage TagSystems ws = Throw e
  end.
Proof.
  unfold sourceLanguage, displayLanguage, normalizeLocale.
  destruct (tagSystem TagSystems ws) as [ts|]; simpl; [|by eexists].
  set (source := normalize ts _ (JStr "") _).
  set (display := normalize ts _ JUndefined _).
  assert (Htruthy : truthy (if truthy source then source
                            else if truthy display then display else JStr "en") = true).
  { destruct (truthy source) eqn:Hs; [done|]. by destruct (truthy display) eqn:Hd. }
  split; [done|]. split; [|split].
  - unfold js_or. destruct (truthy source); [done|]. simpl. by destruct (truthy display).
  - done.
  - by apply truthy_not_empty.
Qed.

(** ** Locale normalization under the specified tag systems *)

Section SameLocale.

Import SpecTags.

Ltac by_cases_on_ascii c :=
  destruct c as [[] [] [] [] [] [] [] []]; vm_compute; reflexivity.

Lemma to_lower_idemp c : to_lower (to_lower c) = to_lower c.
Proof. by_cases_on_ascii c. Qed.

Lemma is_separator_fold c : is_separator (fold_char c) = is_separator c.
Proof. by_cases_on_ascii c. Qed.

Lemma to_lower_fold c : to_lower (fold_char c) = (if is_separator c then hyphen else to_lower c).
Proof. by_cases_on_ascii c. Qed.

Lemma string_map_to_lower_idemp s :
  string_map to_lower (string_map to_lower s) = string_map to_lower s.
Proof. induction s as [|c s IH]; simpl; [done|]. by rewrite to_lower_idemp, IH. Qed.

Lemma subtags_not_nil s : subtags s <> [].
Proof.
  destruct s as [|c s]; simpl; [done|].
  destruct (is_separator c); [done|]. by destruct (subtags s).
Qed.

(** Folding case and separators changes no subtag boundary, and the
    subtags only in their case. *)
Lemma subtags_fold s :
  map (string_map to_lower) (subtags (string_map fold_char s))
  = map (string_map to_lower) (subtags s).
Proof.
  induction s as [|c s IH]; simpl; [done|].
  rewrite is_separator_fold.
  destruct (is_separator c) eqn:Hc; simpl; [by rewrite IH|].
  pose proof (subtags_not_nil s) as Hs.
  pose proof (subtags_not_nil (string_map fold_char s)) as Hs'.
  destruct (subtags s) as [|piece pieces]; [done|].
  destruct (subtags (string_map fold_char s)) as [|piece' pieces']; [done|].
  simpl in *. injection IH as Hpiece Hpieces.
  rewrite to_lower_fold, Hc, Hpiece, Hpieces. done.
Qed.

Lemma canonical_form_fold rules s :
  toCanonicalForm rules <$> parse_tag (string_map fold_char s)
  = toCanonicalForm rules <$> parse_tag s.
Proof.
  unfold parse_tag. rewrite subtags_fold.
  destruct (map (string_map to_lower) (subtags s)) as [|l [|x [|r [|]]]]; simpl; try done.
  - by destruct (is_language l).
  - destruct (is_language l && is_script x); [done|].
    by destruct (is_language l && is_region x).
  - by destruct (is_language l && is_script x && is_region r).
Qed.

Lemma spec_normalize_same_locale rules s1 s2 fallback strict :
  same_locale s1 s2 ->
  spec_normalize rules (JStr s1) fallback strict
  = spec_normalize rules (JStr s2) fallback strict.
Proof.
  intros Hsame. unfold spec_normalize.
  pose proof (canonical_form_fold rules s1) as H1.
  pose proof (canonical_form_fold rules s2) as H2.
  rewrite Hsame in H1. rewrite H1 in H2.
  destruct (parse_tag s1) as [t1|], (parse_tag s2) as [t2|]; simpl in H2;
    [injection H2 as ->; done | discriminate | discriminate | done].
Qed.

End SameLocale.

(** C7, for the tag systems the specification describes: when every
    registered tag system renders the parsed (language, script, region)
    with its own separator and casing rules, two valid locale strings that
    differ only in letter case and in the separator used ([-] or [_])
    normalize to the same result, whatever the configuration selects. *)
Theorem normalizeLocale_same_locale
  (TagSystems : string -> option TagSystem) (ws : Workspace)
  (s1 s2 : string) (fallback strict : JsVal) :
  (forall name ts, TagSystems name = Some ts -> exists rules, ts = SpecTags.tag_system rules) ->
  SpecTags.valid_locale s1 ->
  SpecTags.valid_locale s2 ->
  SpecTags.same_locale s1 s2 ->
  normalizeLocale TagSystems ws (JStr s1) fallback strict
  = normalizeLocale TagSystems ws (JStr s2) fallback strict.
Proof.
  intros Hspec _ _ Hsame. unfold normalizeLocale.
  destruct (tagSystem TagSystems ws) as [ts|] eqn:Hts; [|done].
  unfold tagSystem in Hts. apply Hspec in Hts as [rules ->]. simpl.
  change (Ok (SpecTags.spec_normalize rules (JStr s1) fallback strict)
          = Ok (SpecTags.spec_normalize rules (JStr s2) fallback strict)).
  by rewrite (spec_normalize_same_locale rules s1 s2 fallback strict Hsame).
Qed.

Lemma spec_table_is_spec name ts :
  SpecTags.TagSystems name = Some ts -> exists rules, ts = SpecTags.tag_system rules.
Proof.
  unfold SpecTags.TagSystems.
  destruct (String.eqb name "bcp47"); [intros [= <-]; by eexists|].
  destruct (String.eqb name "legacy"); [intros [= <-]; by eexists|]. done.
Defined.

Lemma normalizeLocale_same_locale_witness :
  normalizeLocale SpecTags.TagSystems ws_empty (JStr "en_US") JUndefined JUndefined
  = normalizeLocale SpecTags.TagSystems ws_empty (JStr "en-us") JUndefined JUndefined.
Proof.
  apply (normalizeLocale_same_locale SpecTags.TagSystems ws_empty "en_US" "en-us").
  - exact spec_table_is_spec.
  - vm_compute. by eexists.
  - vm_compute. by eexists.
  - reflexivity.
Defined.

(** ** Message formatting *)

Lemma string_app_cons (x : ascii) (a b : string) : String x a +:+ b = String x (a +:+ b).
Proof. reflexivity. Qed.

Lemma string_app_nil_l (b : string) : "" +:+ b = b.
Proof. reflexivity. Qed.

Lemma string_app_assoc (a b c : string) : (a +:+ b) +:+ c = a +:+ b +:+ c.
Proof.
  induction a as [|x a IH]; [done|].
  rewrite !string_app_cons. f_equal. apply IH.
Qed.

Lemma string_app_nil_r (a : string) : a +:+ "" = a.
Proof.
  induction a as [|x a IH]; [done|].
  rewrite string_app_cons. f_equal. apply IH.
Qed.

(** The defining equation of the replacement loop. *)
Lemma replace_placeholders_unfold callback str :
  replace_placeholders callback str
  = match match_placeholder str with
    | Some (number, after) =>
        replacement <-! callback (placeholder number) number;
        tail <-! replace_placeholders callback after;
        Ok (replacement +:+ tail)
    | None =>
        match str with
        | EmptyString => Ok ""
        | String c rest => tail <-! replace_placeholders callback rest; Ok (String c tail)
        end
    end.
Proof.
  funelim (replace_placeholders callback str).
  - match goal with e : match_placeholder _ = Some _ |- _ => by rewrite e end.
  - done.
  - match goal with e : match_placeholder _ = None |- _ => by rewrite e end.
Qed.

Lemma take_digits_all ds : string_forall is_digit ds = true -> take_digits ds = (ds, "").
Proof.
  induction ds as [|c ds IH]; simpl; [done|].
  destruct (is_digit c); simpl; [|done]. intros Hds. by rewrite IH.
Qed.

(** Text that does not start with a digit, appended, is left to the rest. *)
Lemma take_digits_app s u ds after :
  match u with String c _ => is_digit c = false | EmptyString => True end ->
  take_digits s = (ds, after) ->
  take_digits (s +:+ u) = (ds, after +:+ u).
Proof.
  intros Hu. revert ds after. induction s as [|c s IH]; intros ds after; simpl.
  - intros [= <- <-]. simpl. destruct u as [|c u]; [done|]. simpl. by rewrite Hu.
  - destruct (is_digit c).
    + destruct (take_digits s) as [ds' after'] eqn:E. intros [= <- <-].
      by rewrite (IH ds' after').
    + by intros [= <- <-].
Qed.

Lemma take_digits_app_rest s u ds e after :
  take_digits s = (ds, String e after) ->
  take_digits (s +:+ u) = (ds, String e after +:+ u).
Proof.
  revert ds. induction s as [|c s IH]; intros ds; simpl; [done|].
  destruct (is_digit c).
  - destruct (take_digits s) as [ds' after'] eqn:E. intros [= <- ->].
    rewrite (IH ds' eq_refl). reflexivity.
  - by intros [= <- <- <-].
Qed.

Lemma match_placeholder_hole number rest :
  is_number number = true ->
  match_placeholder (placeholder number +:+ rest) = Some (number, rest).
Proof.
  unfold is_number, placeholder. intros [Hne Hds]%andb_prop.
  rewrite string_app_cons, string_app_assoc, string_app_cons, string_app_nil_l.
  unfold match_placeholder. rewrite Ascii.eqb_refl.
  rewrite (take_digits_app number (String close_brace rest) number "")
    by (done || by apply take_digits_all).
  rewrite string_app_nil_l.
  destruct number as [|d ds]; [done|]. by rewrite Ascii.eqb_refl.
Qed.

Lemma match_placeholder_app s u number after :
  match_placeholder s = Some (number, after) ->
  match_placeholder (s +:+ u) = Some (number, after +:+ u).
Proof.
  destruct s as [|c s]; simpl; [done|].
  destruct (Ascii.eqb c open_brace); [|done].
  destruct (take_digits s) as [[|d ds] [|e rest]] eqn:E; try done.
  rewrite (take_digits_app_rest s u _ _ _ E). simpl.
  destruct (Ascii.eqb e close_brace); [|done]. by intros [= <- <-].
Qed.

Lemma match_placeholder_before_brace c s u :
  match_placeholder (String c s) = None ->
  match_placeholder (String c s +:+ String open_brace u) = None.
Proof.
  rewrite string_app_cons. simpl.
  destruct (Ascii.eqb c open_brace); [|done].
  destruct (take_digits s) as [ds rest] eqn:E.
  rewrite (take_digits_app s (String open_brace u) ds rest) by done.
  destruct ds as [|d ds]; [done|].
  destruct rest as [|e rest]; [done|].
  rewrite string_app_cons.
  by destruct (Ascii.eqb e close_brace).
Qed.

Lemma no_placeholder_cons c s :
  no_placeholder (String c s) = true ->
  match_placeholder (String c s) = None /\ no_placeholder s = true.
Proof.
  change (no_placeholder (String c s))
    with (match match_placeholder (String c s) with
          | Some _ => false
          | None => no_placeholder s
          end).
  by destruct (match_placeholder (String c s)).
Qed.

(** Text without a placeholder is copied. *)
Lemma replace_plain_text callback text :
  no_placeholder text = true -> replace_placeholders callback text = Ok text.
Proof.
  induction text as [|c text IH]; intros Hplain;
    rewrite replace_placeholders_unfold; [done|].
  apply no_placeholder_cons in Hplain as [-> Hplain].
  by rewrite IH.
Qed.

(** Text without a placeholder, in front of a brace, is copied, and the
    search goes on at the brace. *)
Lemma replace_text_before_brace callback text u :
  no_placeholder text = true ->
  replace_placeholders callback (text +:+ String open_brace u)
  = (tail <-! replace_placeholders callback (String open_brace u); Ok (text +:+ tail)).
Proof.
  induction text as [|c text IH]; intros Hplain.
  - rewrite string_app_nil_l.
    by destruct (replace_placeholders callback (String open_brace u)).
  - apply no_placeholder_cons in Hplain as [Hhere Hplain].
    rewrite replace_placeholders_unfold.
    rewrite (match_placeholder_before_brace c text u Hhere).
    rewrite string_app_cons, IH by done.
    by destruct (replace_placeholders callback (String open_brace u)).
Qed.

Lemma replace_at_placeholder callback number rest :
  is_number number = true ->
  replace_placeholders callback (placeholder number +:+ rest)
  = (replacement <-! callback (placeholder number) number;
     tail <-! replace_placeholders callback rest;
     Ok (replacement +:+ tail)).
Proof.
  intros Hnumber. rewrite replace_placeholders_unfold.
  by rewrite match_placeholder_hole.
Qed.

(** *** Digit text and array indices *)

Lemma digits_value_fold ds :
  digits_value ds = fold_left digits_step (String.list_ascii_of_string ds) 0%N.
Proof. reflexivity. Qed.

Lemma is_digit_char c :
  is_digit c = true ->
  (digit_value c < 10)%N /\ pretty_N_char (digit_value c) = c.
Proof.
  destruct c as [[] [] [] [] [] [] [] []]; try discriminate; intros _; by vm_compute.
Qed.

Lemma digit_value_char d : (d < 10)%N -> digit_value (pretty_N_char d) = d.
Proof.
  intros Hd.
  assert (d = 0 \/ d = 1 \/ d = 2 \/ d = 3 \/ d = 4 \/ d = 5 \/ d = 6 \/ d = 7 \/ d = 8
          \/ d = 9)%N as Hcases by lia.
  by repeat (destruct Hcases as [->|Hcases]); [..|subst d].
Qed.

Lemma fold_digits_acc l acc :
  fold_left digits_step l acc
  = (acc * 10 ^ N.of_nat (length l) + fold_left digits_step l 0)%N.
Proof.
  revert acc. induction l as [|c l IH]; intros acc; simpl.
  - rewrite N.pow_0_r. lia.
  - rewrite IH, (IH (digits_step 0 c)). unfold digits_step.
    replace (N.of_nat (S (length l))) with (N.succ (N.of_nat (length l))) by lia.
    rewrite N.pow_succ_r'. lia.
Qed.

Lemma digits_value_cons c s :
  digits_value (String c s)
  = (digit_value c * 10 ^ N.of_nat (String.length s) + digits_value s)%N.
Proof.
  rewrite !digits_value_fold. simpl. rewrite fold_digits_acc.
  unfold digits_step at 2, digit_value.
  replace (length (String.list_ascii_of_string s)) with (String.length s); [f_equal; lia|].
  induction s as [|x s IH]; simpl; [done|]. by rewrite IH.
Qed.

Lemma digits_value_pretty_go x s :
  digits_value (pretty_N_go x s) = (x * 10 ^ N.of_nat (String.length s) + digits_value s)%N.
Proof.
  revert s. induction (N.lt_wf_0 x) as [x _ IH]; intros s.
  assert (x = 0 \/ 0 < x)%N as [->|Hx] by lia.
  - rewrite pretty_N_go_0. lia.
  - rewrite pretty_N_go_step by done.
    rewrite IH by (by apply N.div_lt).
    rewrite digits_value_cons, digit_value_char by (by apply N.mod_lt).
    simpl String.length.
    replace (N.of_nat (S (String.length s))) with (N.succ (N.of_nat (String.length s))) by lia.
    rewrite N.pow_succ_r'.
    pose proof (N.div_mod x 10 ltac:(done)) as Hx10.
    set (q := (x `div` 10)%N) in *. set (r := (x `mod` 10)%N) in *.
    set (p := (10 ^ N.of_nat (String.length s))%N). nia.
Qed.

Lemma digits_value_pretty (x : N) : digits_value (pretty x) = x.
Proof.
  unfold pretty, pretty_N. case_decide as Hx; [by subst x|].
  rewrite digits_value_pretty_go. simpl. rewrite N.pow_0_r.
  change (digits_value "") with 0%N. lia.
Qed.

Lemma pretty_go_head x s :
  (0 < x)%N -> exists c rest, pretty_N_go x s = String c rest /\ c <> "0"%char.
Proof.
  revert s. induction (N.lt_wf_0 x) as [x _ IH]; intros s Hx.
  rewrite pretty_N_go_step by done.
  destruct (N.eq_0_gt_0_cases (x `div` 10)) as [Hsmall|Hbig].
  - rewrite Hsmall, pretty_N_go_0. eexists _, _. split; [done|].
    apply N.div_small_iff in Hsmall; [|done].
    rewrite N.mod_small by done.
    assert (x = 1 \/ x = 2 \/ x = 3 \/ x = 4 \/ x = 5 \/ x = 6 \/ x = 7 \/ x = 8
            \/ x = 9)%N as Hcases by lia.
    by repeat (destruct Hcases as [->|Hcases]); [..|subst x].
  - apply IH; [|done]. by apply N.div_lt.
Qed.

Lemma canonical_index_pretty (x : N) : canonical_index (pretty x) = true.
Proof.
  unfold pretty, pretty_N. case_decide as Hx; [done|].
  destruct (pretty_go_head x "") as (c & rest & -> & Hc); [lia|].
  simpl. by destruct (Ascii.eqb_spec c "0"%char).
Qed.

Lemma string_of_list_snoc l c s :
  String.string_of_list_ascii (l ++ [c]) +:+ s
  = String.string_of_list_ascii l +:+ String c s.
Proof.
  induction l as [|x l IH]; simpl; [done|].
  by rewrite !string_app_cons, IH.
Qed.

Lemma pretty_go_digits l s :
  Forall (fun c => is_digit c = true) l ->
  head l <> Some "0"%char ->
  pretty_N_go (fold_left digits_step l 0%N) s = String.string_of_list_ascii l +:+ s.
Proof.
  revert s. induction l as [|c l IH] using rev_ind; intros s Hdigits Hhead.
  - simpl. by rewrite pretty_N_go_0.
  - apply Forall_app in Hdigits as [Hl Hc].
    apply Forall_cons in Hc as [Hc _].
    destruct (is_digit_char c Hc) as [Hlt Hchar].
    rewrite fold_left_app. simpl. unfold digits_step at 1. fold (digit_value c).
    set (a := fold_left digits_step l 0%N).
    assert (Hpos : (0 < 10 * a + digit_value c)%N).
    { destruct l as [|x l].
      - simpl in Hhead. subst a. simpl.
        destruct (N.eq_dec (digit_value c) 0%N) as [Hzero|]; [|lia].
        rewrite Hzero in Hchar. simpl in Hchar. by subst c.
      - assert (a <> 0%N); [|lia]. intros Hzero.
        specialize (IH "" Hl Hhead). fold a in IH. rewrite Hzero, pretty_N_go_0 in IH.
        simpl in IH. by rewrite string_app_cons in IH. }
    rewrite pretty_N_go_step by done.
    replace ((10 * a + digit_value c) `div` 10)%N with a
      by (apply (N.div_unique _ 10 a (digit_value c)); lia).
    replace ((10 * a + digit_value c) `mod` 10)%N with (digit_value c)
      by (apply (N.mod_unique _ 10 a (digit_value c)); lia).
    rewrite Hchar, string_of_list_snoc. apply IH; [done|].
    destruct l; [done|]. exact Hhead.
Qed.

Lemma string_forall_as_list p s :
  string_forall p s = true -> Forall (fun c => p c = true) (String.list_ascii_of_string s).
Proof.
  induction s as [|c s IH]; simpl; [constructor|].
  intros [Hc Hs]%andb_true_iff. constructor; auto.
Qed.

Lemma pretty_digits_value ds :
  is_number ds = true -> canonical_index ds = true -> pretty (digits_value ds) = ds.
Proof.
  unfold is_number. intros [_ Hdigits]%andb_true_iff Hcanonical.
  apply string_forall_as_list in Hdigits.
  destruct ds as [|c rest]; [done|]. simpl in Hcanonical.
  destruct (Ascii.eqb_spec c "0"%char) as [->|Hc]; simpl in Hcanonical.
  - apply String.eqb_eq in Hcanonical as ->. reflexivity.
  - rewrite digits_value_fold.
    pose proof (pretty_go_digits _ "" Hdigits) as Hgo.
    rewrite String.string_of_list_ascii_of_string, string_app_nil_r in Hgo.
    unfold pretty, pretty_N. case_decide as Hzero.
    + rewrite Hzero, pretty_N_go_0 in Hgo. discriminate Hgo. simpl. congruence.
    + apply Hgo. simpl. congruence.
Qed.

Lemma find_unique (f : nat -> bool) (n i : nat) :
  (i < n)%nat -> f i = true -> (forall j, f j = true -> j = i) ->
  find f (seq 0 n) = Some i.
Proof.
  intros Hi Hf Hunique. destruct (find f (seq 0 n)) as [j|] eqn:Hfind.
  - apply find_some in Hfind as [_ Hj]. f_equal. by apply Hunique.
  - eapply find_none in Hfind; [|apply in_seq; split; [lia|exact Hi]]. congruence.
Qed.

Lemma pretty_nat_N (x : N) : pretty (N.to_nat x) = pretty x.
Proof. unfold pretty at 1, pretty_nat. by rewrite N2Nat.id. Qed.

(** Reading [args[number]] reaches the element whose index prints as the
    digits, and nothing when no index does. *)
Lemma array_get_named args number :
  is_number number = true ->
  array_get args number = default JUndefined (named_entry args number).
Proof.
  intros Hnumber. unfold array_get, named_entry, index_named.
  destruct (canonical_index number && (digits_value number <? N.of_nat (length args))%N)
    eqn:Hreach.
  - apply andb_true_iff in Hreach as [Hcanonical Hlt]. apply N.ltb_lt in Hlt.
    rewrite (find_unique _ _ (N.to_nat (digits_value number))); [done|lia|..].
    + apply String.eqb_eq. rewrite pretty_nat_N. by apply pretty_digits_value.
    + intros j Hj%String.eqb_eq. subst number.
      unfold pretty, pretty_nat. rewrite digits_value_pretty. lia.
  - destruct (find _ _) as [j|] eqn:Hfind; [|done].
    apply find_some in Hfind as [Hj%in_seq Hname%String.eqb_eq]. subst number.
    unfold pretty, pretty_nat in Hreach.
    rewrite canonical_index_pretty, digits_value_pretty in Hreach. simpl in Hreach.
    apply N.ltb_ge in Hreach. lia.
Qed.

Lemma named_entry_index args (i : nat) : named_entry args (pretty i) = args !! i.
Proof.
  unfold named_entry, index_named.
  destruct (decide (i < length args)%nat) as [Hi|Hi].
  - rewrite (find_unique _ _ i); [done|done|by apply String.eqb_refl|].
    intros j Hj%String.eqb_eq. by apply (inj pretty).
  - destruct (find _ _) as [j|] eqn:Hfind.
    + apply find_some in Hfind as [Hj%in_seq Hname%String.eqb_eq].
      apply (inj pretty) in Hname. lia.
    + symmetry. apply lookup_ge_None. lia.
Qed.

Lemma named_entry_leading_zero args c ds :
  named_entry args (String "0" (String c ds)) = None.
Proof.
  unfold named_entry, index_named.
  destruct (find _ _) as [j|] eqn:Hfind; [|done].
  apply find_some in Hfind as [_ Hname%String.eqb_eq].
  pose proof (canonical_index_pretty (N.of_nat j)) as Hcanonical.
  unfold pretty, pretty_nat in Hname. by rewrite Hname in Hcanonical.
Qed.

Lemma callback_replacement args number :
  is_number number = true ->
  (if is_defined (array_get args number)
   then toString (array_get args number)
   else Ok (placeholder number))
  = replacement args number.
Proof.
  intros Hnumber. rewrite array_get_named by done. unfold replacement.
  by destruct (named_entry args number) as [[]|].
Qed.

(** X1, the formatter on a template cut at its placeholders, for arguments
    that are strings, booleans, safe integers, [null], [undefined] or arrays
    of these: the text between placeholders is copied; a placeholder is
    replaced by the printed element that its digits reach, read as a
    property name, and stays as it is when they reach none or an
    [undefined] one; a [null] element ends the call with a TypeError.  The
    digits [{i}] in decimal form reach [args[i]]; digits with a leading zero
    reach nothing. *)
Theorem format_template (args : list JsVal) (holes : list (string * string)) (ending : string) :
  Forall (fun hole => no_placeholder hole.1 = true /\ is_number hole.2 = true) holes ->
  no_placeholder ending = true ->
  Forall (fun a => printable a = true) args ->
  format (template_text holes ending) args = fill args holes ending
  /\ (forall i : nat, named_entry args (pretty i) = args !! i)
  /\ (forall c ds, named_entry args (String "0" (String c ds)) = None).
Proof.
  intros Hholes Hending _.
  split; [|split; [apply named_entry_index|apply named_entry_leading_zero]].
  unfold format.
  induction Hholes as [|[text number] holes [Htext Hnumber] _ IH]; simpl.
  - by apply replace_plain_text.
  - simpl in Htext, Hnumber.
    change (placeholder number +:+ template_text holes ending)
      with (String open_brace ((number +:+ String close_brace "") +:+ template_text holes ending)).
    rewrite replace_text_before_brace by done.
    change (String open_brace ((number +:+ String close_brace "") +:+ template_text holes ending))
      with (placeholder number +:+ template_text holes ending).
    rewrite replace_at_placeholder by done.
    rewrite IH, callback_replacement by done.
    destruct (replacement args number) as [printed|e]; simpl; [|done].
    by destruct (fill args holes ending) as [tail|e].
Qed.

Lemma format_template_witness :
  format "Hello {0}, {1} of {01} keys{" [JStr "Ann"; JNum 3]
  = Ok "Hello Ann, 3 of {01} keys{".
Proof.
  refine (proj1 (format_template [JStr "Ann"; JNum 3]
                   [("Hello ", "0"); (", ", "1"); (" of ", "01")] " keys{" _ _ _)).
  - repeat constructor.
  - reflexivity.
  - repeat constructor.
Defined.

Lemma take_digits_split s ds after :
  take_digits s = (ds, after) -> s = ds +:+ after /\ string_forall is_digit ds = true.
Proof.
  revert ds after. induction s as [|c s IH]; intros ds after; simpl.
  - by intros [= <- <-].
  - destruct (is_digit c) eqn:Hc.
    + destruct (take_digits s) as [ds' after'] eqn:E. intros [= <- <-].
      destruct (IH ds' after' eq_refl) as [-> Hds]. simpl. by rewrite Hc.
    + by intros [= <- <-].
Qed.

Lemma match_placeholder_inv s number after :
  match_placeholder s = Some (number, after) ->
  s = placeholder number +:+ after /\ is_number number = true.
Proof.
  destruct s as [|c s]; simpl; [done|].
  destruct (Ascii.eqb_spec c open_brace) as [->|]; [|done].
  destruct (take_digits s) as [[|d ds] [|e rest]] eqn:E; try done.
  destruct (Ascii.eqb_spec e close_brace) as [->|]; [|done].
  intros [= <- <-]. apply take_digits_split in E as [-> Hds].
  unfold placeholder, is_number.
  by rewrite (string_app_cons open_brace), string_app_assoc, Hds.
Qed.

Lemma string_app_length (a b : string) :
  String.length (a +:+ b) = (String.length a + String.length b)%nat.
Proof.
  induction a as [|x a IH]; [done|].
  rewrite string_app_cons. simpl. by rewrite IH.
Qed.

Lemma match_placeholder_shorter s number after :
  match_placeholder s = Some (number, after) ->
  (String.length after < String.length s)%nat.
Proof.
  intros [-> _]%match_placeholder_inv.
  rewrite string_app_length. unfold placeholder. simpl. lia.
Qed.

(** X2, every string is a template: the cut exists, so [format_template]
    describes [format] on every input. *)
Lemma every_string_is_template (str : string) :
  exists holes ending,
    Forall (fun hole => no_placeholder hole.1 = true /\ is_number hole.2 = true) holes
    /\ no_placeholder ending = true
    /\ template_text holes ending = str.
Proof.
  remember (String.length str) as n eqn:Hn. revert str Hn.
  induction n as [n IH] using (well_founded_induction lt_wf). intros str ->.
  destruct str as [|c rest]; [by exists [], ""|].
  destruct (match_placeholder (String c rest)) as [[number after]|] eqn:Hmatch.
  - destruct (IH (String.length after)) with (str := after)
      as (holes & ending & Hholes & Hending & Htext);
      [by eapply match_placeholder_shorter|done|].
    apply match_placeholder_inv in Hmatch as [-> Hnumber].
    exists (("", number) :: holes), ending. split; [|split].
    + by constructor.
    + done.
    + simpl. by rewrite Htext.
  - destruct (IH (String.length rest)) with (str := rest)
      as (holes & ending & Hholes & Hending & Htext); [simpl; lia|done|].
    destruct holes as [|[text number] holes].
    + exists [], (String c rest). simpl in Htext. subst ending.
      split; [done|]. split; [|done].
      change (no_placeholder (String c rest))
        with (match match_placeholder (String c rest) with
              | Some _ => false
              | None => no_placeholder rest
              end).
      by rewrite Hmatch.
    + exists ((String c text, number) :: holes), ending.
      apply Forall_cons in Hholes as [[Htext' Hnumber] Hholes].
      simpl in Htext', Hnumber, Htext.
      split; [|split; [done|]].
      * constructor; [|done]. split; [|done]. simpl.
        change (match match_placeholder (String c text) with
                | Some _ => false
                | None => no_placeholder text
                end = true).
        destruct (match_placeholder (String c text)) as [[n' a']|] eqn:Hhere; [|done].
        apply (match_placeholder_app _ (placeholder number +:+ template_text holes ending))
          in Hhere.
        rewrite string_app_cons, Htext in Hhere. congruence.
      * simpl. by rewrite string_app_cons, Htext.
Qed.

(** C8, the failing case: a [null] argument is a defined entry, and
    [format] raises on it instead of printing it; so does [t] for a message
    that refers to it. *)
Theorem format_null_argument_raises :
  format "{0}" [JNull]
  = Throw (TypeError "Cannot read properties of null (reading 'toString')")
  /\ t (list_to_map [("greeting", "Hello {0}")]) "greeting" [JNull]
     = Throw (TypeError "Cannot read properties of null (reading 'toString')").
Proof. split; reflexivity. Qed.

(** X3: a key that has no message and is no inherited member name gives the
    empty string, with or without arguments. *)
Theorem t_missing_key (messages : gmap string string) (key : string) (args : list JsVal) :
  messages !! key = None ->
  key ∉ object_prototype_members ->
  t messages key args = Ok (JStr "").
Proof.
  intros Hkey Hown. unfold t, messages_get. rewrite Hkey.
  rewrite bool_decide_eq_false_2 by done. simpl.
  destruct (negb (length args =? 0)%nat); [|done].
  unfold format. by rewrite replace_placeholders_unfold.
Qed.

Lemma t_missing_key_witness :
  t (list_to_map [("greeting", "Hello {0}")]) "farewell" [JStr "Ann"] = Ok (JStr "").
Proof.
  apply t_missing_key.
  - reflexivity.
  - apply (bool_decide_eq_false_1 ("farewell" ∈ object_prototype_members)).
    reflexivity.
Defined.

(** A key that is not loaded but names an inherited member gives that
    member when no argument is passed, and raises when one is. *)
Lemma t_inherited_member :
  t (list_to_map [("greeting", "Hello {0}")]) "constructor" [] = Ok JObj
  /\ t (list_to_map [("greeting", "Hello {0}")]) "constructor" [JStr "Ann"]
     = Throw (TypeError "str.replace is not a function").
Proof. split; reflexivity. Qed.

(** * Further properties *)

Import ConfigRest.

(** ** Formatting: when nothing is replaced, and when the call raises *)

Lemma replace_placeholders_ind (P : string -> Prop) :
  (forall str, (forall shorter, (String.length shorter < String.length str)%nat -> P shorter) -> P str) ->
  forall str, P str.
Proof.
  intros Hstep str. remember (String.length str) as n eqn:Hn. revert str Hn.
  induction n as [n IH] using (well_founded_induction lt_wf). intros str ->.
  apply Hstep. intros shorter Hshorter. by eapply IH.
Qed.

Lemma replace_identity callback str :
  (forall number, callback (placeholder number) number = Ok (placeholder number)) ->
  replace_placeholders callback str = Ok str.
Proof.
  intros Hcallback. induction str as [str IH] using replace_placeholders_ind.
  rewrite replace_placeholders_unfold.
  destruct (match_placeholder str) as [[number after]|] eqn:Hmatch.
  - rewrite Hcallback. simpl.
    rewrite IH by (by eapply match_placeholder_shorter). simpl.
    by apply match_placeholder_inv in Hmatch as [-> _].
  - destruct str as [|c rest]; [done|].
    rewrite IH by (simpl; lia). done.
Qed.

Lemma replace_throws callback str e :
  replace_placeholders callback str = Throw e ->
  exists number, callback (placeholder number) number = Throw e.
Proof.
  induction str as [str IH] using replace_placeholders_ind.
  rewrite replace_placeholders_unfold.
  destruct (match_placeholder str) as [[number after]|] eqn:Hmatch.
  - destruct (callback (placeholder number) number) as [replacement|e'] eqn:Hcb; simpl.
    + destruct (replace_placeholders callback after) as [tail|e'] eqn:Hafter; simpl; [done|].
      intros [= ->]. apply (IH after); [by eapply match_placeholder_shorter|done].
    + intros [= ->]. by exists number.
  - destruct str as [|c rest]; [done|].
    destruct (replace_placeholders callback rest) as [tail|e'] eqn:Hrest; simpl; [done|].
    intros [= ->]. apply (IH rest); [simpl; lia|done].
Qed.

Lemma array_get_elem args number :
  array_get args number = JUndefined \/ array_get args number ∈ args.
Proof.
  unfold array_get.
  destruct (canonical_index number && _); [|by left].
  destruct (args !! N.to_nat (digits_value number)) as [v|] eqn:Hv; [|by left].
  right. simpl. by eapply list_elem_of_lookup_2.
Qed.

(** X4: with no argument, or with arguments that are all [undefined],
    [format] returns the template as it is, whatever the template. *)
Theorem format_without_arguments (str : string) (args : list JsVal) :
  Forall (fun a => a = JUndefined) args ->
  format str args = Ok str.
Proof.
  intros Hargs. unfold format. apply replace_identity. intros number.
  destruct (array_get_elem args number) as [->|Hin]; [done|].
  eapply Forall_forall in Hargs; [|exact Hin]. by rewrite Hargs.
Qed.

Lemma format_without_arguments_witness :
  format "{0} of {1}" [JUndefined; JUndefined] = Ok "{0} of {1}".
Proof. apply format_without_arguments. repeat constructor. Defined.

(** X5: for arguments whose printing runs no code of an object (strings,
    booleans, numbers, [null], [undefined] and arrays of these), [format]
    raises only on a [null] argument, and then with the TypeError of reading
    [toString] of [null]; with no [null] among such arguments it returns a
    string. *)
Theorem format_raises_only_on_null (str : string) (args : list JsVal) (e : JsError) :
  Forall (fun a => object_free a = true) args ->
  format str args = Throw e ->
  JNull ∈ args
  /\ e = TypeError "Cannot read properties of null (reading 'toString')".
Proof.
  intros _ [number Hcb]%replace_throws.
  destruct (array_get_elem args number) as [Hget|Hin].
  - by rewrite Hget in Hcb.
  - destruct (array_get args number); simpl in Hcb; try done.
    by injection Hcb as <-.
Qed.

Lemma format_raises_only_on_null_witness :
  JNull ∈ [JStr "a"; JNull]
  /\ TypeError "Cannot read properties of null (reading 'toString')"
     = TypeError "Cannot read properties of null (reading 'toString')".
Proof.
  apply (format_raises_only_on_null "{0}{1}" [JStr "a"; JNull]).
  - repeat constructor.
  - reflexivity.
Defined.

(** ** Writing a setting and reading it back *)

Lemma write_level_lookup_ne key key' value (m : gmap string JsVal) :
  key <> key' -> write_level key value m !! key' = m !! key'.
Proof.
  intros Hne. destruct value; simpl;
    rewrite ?lookup_delete_ne, ?lookup_insert_ne by done; done.
Qed.

Lemma cfg_get_cfg_update_ne st key key' value isGlobal scope :
  key <> key' ->
  cfg_get (cfg_update st key value isGlobal) scope key' = cfg_get st scope key'.
Proof.
  intros Hne. unfold cfg_get, cfg_update, folder_lookup.
  destruct isGlobal; simpl; by rewrite write_level_lookup_ne.
Qed.

(** X6: writing one key changes what [getConfig] reads for no other key,
    in any scope, as long as neither key names a setting inside the other
    (a key that extends the written one by a dotted name, or that the
    written one extends, is read through the written value). *)
Theorem setConfig_other_keys
  (ws : Workspace) (key key' : string) (value : JsVal) (isGlobal : bool)
  (scope : option string) :
  key <> key' ->
  nested_keys key key' = false ->
  getConfig (setConfig ws key value isGlobal) key' scope = getConfig ws key' scope.
Proof.
  intros Hne _. unfold getConfig.
  rewrite ext_setConfig, legacy_setConfig, cfg_get_cfg_update_ne by done.
  destruct (truthy (cfg_get (legacy ws) None key)); [|done].
  by rewrite cfg_get_cfg_update_ne.
Qed.

Lemma setConfig_other_keys_witness :
  getConfig (setConfig ws_legacy_false "keystyle" (JStr "flat") false) "keepFulfilled" None
  = getConfig ws_legacy_false "keepFulfilled" None.
Proof. apply setConfig_other_keys; [discriminate|reflexivity]. Defined.

Lemma getConfig_after_write (ws : Workspace) (key : string) (value : JsVal) (isGlobal : bool) :
  is_defined value = true ->
  (if isGlobal then workspace_level (ext ws) !! key else None) = None ->
  getConfig (setConfig ws key value isGlobal) key None = value.
Proof.
  intros Hdef Hfree. unfold getConfig. rewrite ext_setConfig.
  unfold cfg_get, cfg_update. destruct isGlobal; simpl.
  - rewrite Hfree, write_level_lookup, Hdef. simpl. by destruct value.
  - rewrite write_level_lookup, Hdef. by destruct value.
Qed.



Lemma getConfig_user_write_shadowed (ws : Workspace) (key : string) (shadow value : JsVal) :
  workspace_level (ext ws) !! key = Some shadow ->
  is_defined shadow = true ->
  getConfig (setConfig ws key value true) key None = shadow
  /\ getConfig ws key None = shadow.
Proof.
  intros Hshadow Hdef. unfold getConfig. rewrite ext_setConfig.
  unfold cfg_get, cfg_update. simpl. rewrite Hshadow. by destruct shadow.
Qed.

(** X8: while the workspace level defines ignoredLocales,
    [toggleLocaleVisibility], which writes at the user level, leaves the
    list [ignoredLocales] reads as it was, whatever [visible] is. *)
Theorem toggleLocaleVisibility_shadowed
  (ws : Workspace) (shadow : JsVal) (l : string) (visible : option bool) :
  workspace_level (ext ws) !! "ignoredLocales" = Some shadow ->
  is_defined shadow = true ->
  ignoredLocales (toggleLocaleVisibility ws l visible) = ignoredLocales ws.
Proof.
  intros Hshadow Hdef.
  unfold toggleLocaleVisibility, set_ignoredLocales.
  destruct (negb _); unfold ignoredLocales;
    match goal with
    | |- context [setConfig ws "ignoredLocales" ?v true] =>
        destruct (getConfig_user_write_shadowed ws "ignoredLocales" shadow v Hshadow Hdef)
          as [-> ->]
    end; done.
Qed.

Lemma toggleLocaleVisibility_shadowed_witness :
  let ws := mkWorkspace
              (mkSettings ∅ (list_to_map [("ignoredLocales", JArr [JStr "fr"])]) ∅)
              no_settings [] in
  ignoredLocales (toggleLocaleVisibility ws "fr" (Some true)) = ignoredLocales ws.
Proof.
  intros ws.
  apply (toggleLocaleVisibility_shadowed ws (JArr [JStr "fr"]) "fr" (Some true));
    reflexivity.
Defined.

Lemma others_not_included locale xs : includes xs locale = false -> others locale xs = xs.
Proof.
  unfold includes, others. intros Hnot. apply filter_keeps_all. intros y Hy.
  destruct (strict_eq_str y locale) eqn:Heq; [|done].
  assert (existsb (fun i => strict_eq_str i locale) xs = true); [|congruence].
  apply existsb_exists. exists y. split; [by apply list_elem_of_In|done].
Qed.

(** X9: called without [visible], [toggleLocaleVisibility] does not
    toggle: [visible] becomes the current visibility of the locale, so a
    locale that is not ignored stays out of the stored list, which is the
    list read, and a locale that is ignored stays in it and is appended once
    more. *)
Theorem toggleLocaleVisibility_without_visible (ws : Workspace) (l : string) :
  let prior := ignoredLocales ws in
  exists stored : list JsVal,
    stored_ignoredLocales (toggleLocaleVisibility ws l None) = Some (JArr stored)
    /\ stored = (if includes prior l then prior ++ [JStr l] else prior)
    /\ includes stored l = includes prior l
    /\ others l stored = others l prior.
Proof.
  intros prior. unfold toggleLocaleVisibility. fold prior.
  destruct (includes prior l) eqn:Hin; simpl; rewrite stored_after_set.
  - exists (prior ++ [JStr l]). repeat split.
    + apply includes_snoc.
    + apply others_snoc.
  - exists prior. pose proof (others_not_included l prior Hin) as Hsame.
    unfold others in Hsame. rewrite Hsame. by repeat split.
Qed.

(** ** What the locale-path readers return *)

Lemma string_mem_as_list c s :
  string_mem c s = true <-> c ∈ String.list_ascii_of_string s.
Proof.
  induction s as [|d s IH]; simpl.
  - split; [done|]. intros H. by apply not_elem_of_nil in H.
  - rewrite orb_true_iff, IH, elem_of_cons.
    destruct (Ascii.eqb_spec c d); naive_solver.
Qed.

Lemma unslash_never_backslash c : unslash c <> backslash.
Proof.
  unfold unslash. destruct (Ascii.eqb_spec c backslash) as [->|Hc]; [|done].
  by vm_compute.
Qed.

Lemma last_rev_drop_while (t : list ascii) :
  match last (rev (drop_while is_slash t)) with
  | Some c => is_slash c = false
  | None => True
  end.
Proof.
  induction t as [|c t IH]; simpl; [done|].
  destruct (is_slash c) eqn:Hc; [done|].
  simpl. by rewrite last_snoc.
Qed.

Lemma normalize_path_shape s :
  string_mem backslash (normalize_path s) = false
  /\ last_char (normalize_path s) <> Some slash.
Proof.
  unfold last_char. rewrite normalize_path_as_list. split.
  - apply not_true_is_false. intros Hmem%string_mem_as_list.
    rewrite normalize_path_as_list in Hmem.
    apply list_elem_of_fmap in Hmem as (c & Hc & _).
    by eapply unslash_never_backslash.
  - pose proof (last_rev_drop_while (rev (String.list_ascii_of_string s))) as Hlast.
    change (map unslash ?l) with (unslash <$> l). rewrite fmap_last.
    destruct (last _) as [c|]; simpl; [|done].
    rewrite (unslash_not_slash c Hlast). intros [= ->]. by vm_compute in Hlast.
Qed.

(** X10: every path [_localesPaths] or [getLocalesPathsInScope] returns
    contains no ['\'] and does not end in ['/'], and there are as many
    paths as configured array elements. *)
Theorem localesPaths_are_normalized
  (ws : Workspace) (scope : option string) (ps : list string) :
  match scope with
  | None => _localesPaths ws
  | Some folder => getLocalesPathsInScope ws folder
  end = Ok (Some ps) ->
  Forall (fun p => string_mem backslash p = false /\ last_char p <> Some slash) ps
  /\ match getConfig ws "localesPaths" scope with
     | JArr xs => length ps = length xs
     | _ => True
     end.
Proof.
  intros Hread.
  assert (Hbody : read_localesPaths (getConfig ws "localesPaths" scope) = Ok (Some ps))
    by (by destruct scope).
  clear Hread. unfold read_localesPaths in Hbody.
  destruct (truthy (getConfig ws "localesPaths" scope)); simpl in Hbody; [|done].
  destruct (getConfig ws "localesPaths" scope) as [| |b|n|str|xs|]; simpl in Hbody;
    try done; injection Hbody as <-.
  - split; [|done]. apply Forall_map, Forall_forall. intros; apply normalize_path_shape.
  - split; [|by rewrite !length_map].
    apply Forall_map, Forall_forall. intros; apply normalize_path_shape.
Qed.

Lemma localesPaths_are_normalized_witness :
  Forall (fun p => string_mem backslash p = false /\ last_char p <> Some slash)
         ["src/locales"; "i18n"]
  /\ length ["src/locales"; "i18n"] = length [JStr "src\locales\"; JStr "i18n/"].
Proof.
  apply (localesPaths_are_normalized
           (ws_user [("localesPaths", JArr [JStr "src\locales\"; JStr "i18n/"])]) None).
  reflexivity.
Defined.

(** ** Getters that test a length *)

Lemma read_ids_shape object_length ids :
  read_ids object_length ids <> JArr []
  /\ (forall s, read_ids object_length ids <> JStr s)
  /\ (read_ids object_length ids = JUndefined \/ truthy (read_ids object_length ids) = true).
Proof.
  unfold read_ids.
  destruct ids as [| |b|n|s|xs|]; simpl; try (by repeat split; auto).
  - destruct b; simpl; by repeat split; auto.
  - destruct (negb (n =? 0)); simpl; by repeat split; auto.
  - destruct (negb (String.eqb s "")); simpl; by repeat split; auto.
  - destruct xs as [|x xs]; simpl; by repeat split; auto.
  - destruct (truthy object_length); simpl; by repeat split; auto.
Qed.

Lemma read_ids_cases object_length ids :
  match ids with
  | JStr s =>
      read_ids object_length ids = if String.eqb s "" then JUndefined else JArr [JStr s]
  | JArr xs =>
      read_ids object_length ids = match xs with [] => JUndefined | _ => JArr xs end
  | JObj =>
      read_ids object_length ids = if truthy object_length then JObj else JUndefined
  | _ => read_ids object_length ids = JUndefined
  end.
Proof.
  unfold read_ids. destruct ids as [| |b|n|s|xs|]; simpl; try done.
  - by destruct b.
  - by destruct (negb (n =? 0)).
  - by destruct (String.eqb s "").
  - by destruct xs.
  - by destruct (truthy object_length).
Qed.

(** X11: [enabledFrameworks] and [enabledParsers] never return an empty
    array and never a bare string: for each of the two, an empty string or
    array (and a number or boolean) reads as [undefined], a non-empty string
    as the one-element array of it, a non-empty array as itself.
    [_regexUsageMatch] never returns an empty array or an empty string
    either. *)
Theorem id_lists_never_empty (object_length : JsVal) (ws : Workspace) :
  (enabledFrameworks object_length ws <> JArr []
   /\ forall s, enabledFrameworks object_length ws <> JStr s)
  /\ (enabledParsers object_length ws <> JArr []
      /\ forall s, enabledParsers object_length ws <> JStr s)
  /\ (_regexUsageMatch object_length ws <> JArr []
      /\ _regexUsageMatch object_length ws <> JStr "")
  /\ match getConfig ws "enabledFrameworks" None with
     | JStr s =>
         enabledFrameworks object_length ws
         = if String.eqb s "" then JUndefined else JArr [JStr s]
     | JArr xs =>
         enabledFrameworks object_length ws
         = match xs with [] => JUndefined | _ => JArr xs end
     | JObj =>
         enabledFrameworks object_length ws
         = if truthy object_length then JObj else JUndefined
     | _ => enabledFrameworks object_length ws = JUndefined
     end
  /\ match getConfig ws "enabledParsers" None with
     | JStr s =>
         enabledParsers object_length ws
         = if String.eqb s "" then JUndefined else JArr [JStr s]
     | JArr xs =>
         enabledParsers object_length ws
         = match xs with [] => JUndefined | _ => JArr xs end
     | JObj =>
         enabledParsers object_length ws
         = if truthy object_length then JObj else JUndefined
     | _ => enabledParsers object_length ws = JUndefined
     end.
Proof.
  unfold enabledFrameworks, enabledParsers, _regexUsageMatch.
  split; [|split; [|split; [|split]]].
  - pose proof (read_ids_shape object_length (getConfig ws "enabledFrameworks" None)).
    naive_solver.
  - pose proof (read_ids_shape object_length (getConfig ws "enabledParsers" None)).
    naive_solver.
  - destruct (getConfig ws "regex.usageMatch" None) as [| |b|n|s|xs|]; simpl; try done.
    + by destruct b.
    + by destruct (negb (n =? 0)).
    + destruct (String.eqb_spec s ""); simpl; [done|]. split; [done|congruence].
    + by destruct xs.
    + by destruct (truthy object_length).
  - apply read_ids_cases.
  - apply read_ids_cases.
Qed.

(** ** The review identity *)

(** X12: once [reviewUser] has looked both values up with git and got
    non-empty answers, a later [reviewUser] runs no command: it returns the
    memoized pair, whatever git would answer by then, as long as neither
    value is configured. *)
Theorem reviewUser_runs_git_once
  (messages : gmap string string) (execSync execSync' : string -> result string)
  (ws ws' : Workspace) (st : ReviewCache) (name email : string) :
  truthy (getConfig ws "review.user.name" None) = false ->
  truthy (getConfig ws "review.user.email" None) = false ->
  truthy (getConfig ws' "review.user.name" None) = false ->
  truthy (getConfig ws' "review.user.email" None) = false ->
  cache_empty (_reviewUserName st) = true ->
  cache_empty (_reviewUserEmail st) = true ->
  execSync "git config user.name" = Ok name ->
  execSync "git config user.email" = Ok email ->
  name <> "" ->
  email <> "" ->
  let '(first, st1) := reviewUser messages execSync ws st in
  let '(second, st2) := reviewUser messages execSync' ws' st1 in
  first = (Ok (JStr name), Ok (JStr email))
  /\ second = first
  /\ executed st1 = executed st ++ ["git config user.name"; "git config user.email"]
  /\ st2 = st1.
Proof.
  intros Hn He Hn' He' Hcn Hce Hgn Hge Hname Hemail.
  unfold reviewUser, reviewUserName, reviewUserEmail.
  rewrite Hn, He, Hn', He', Hcn, Hgn. simpl. rewrite Hce, Hge. simpl.
  rewrite (proj2 (String.eqb_neq _ _) Hname). simpl.
  rewrite (proj2 (String.eqb_neq _ _) Hemail). simpl.
  rewrite <- app_assoc. done.
Qed.

Lemma reviewUser_runs_git_once_witness :
  let git (command : string) : result string :=
    if String.eqb command "git config user.name" then Ok "Ann" else Ok "ann@example.org" in
  let '(first, st1) := reviewUser ∅ git ws_empty (mkReviewCache None None []) in
  let '(second, st2) := reviewUser ∅ (fun _ => Throw (TypeError "")) ws_empty st1 in
  first = (Ok (JStr "Ann"), Ok (JStr "ann@example.org"))
  /\ second = first
  /\ executed st1 = [] ++ ["git config user.name"; "git config user.email"]
  /\ st2 = st1.
Proof.
  intros git.
  apply (reviewUser_runs_git_once ∅ git (fun _ => Throw (TypeError "")) ws_empty ws_empty
           (mkReviewCache None None []) "Ann" "ann@example.org");
    (reflexivity || discriminate).
Defined.

(** X13: a failed git lookup is not memoized: [reviewUserName] then
    returns the message of [review.unknown_user] (and [reviewUserEmail] the
    empty string), leaves its memo field as it was, and the next read runs
    git again and returns what git answers then. *)
Theorem reviewUserName_retries_after_failure
  (messages : gmap string string) (execSync execSync' : string -> result string)
  (ws : Workspace) (st : ReviewCache) (e : JsError) (name : string) :
  truthy (getConfig ws "review.user.name" None) = false ->
  cache_empty (_reviewUserName st) = true ->
  execSync "git config user.name" = Throw e ->
  execSync' "git config user.name" = Ok name ->
  let '(first, st1) := reviewUserName messages execSync ws st in
  let '(second, st2) := reviewUserName messages execSync' ws st1 in
  first = i18n.t messages "review.unknown_user" []
  /\ _reviewUserName st1 = _reviewUserName st
  /\ second = Ok (JStr name)
  /\ _reviewUserName st2 = Some name
  /\ executed st2 = executed st ++ ["git config user.name"; "git config user.name"].
Proof.
  intros Hn Hcn Hfail Hok. unfold reviewUserName.
  rewrite Hn, Hcn, Hfail. simpl. rewrite Hcn, Hok. simpl.
  by rewrite <- app_assoc.
Qed.

Lemma reviewUserName_retries_after_failure_witness :
  let '(first, st1) :=
    reviewUserName (list_to_map [("review.unknown_user", "Unknown")])
      (fun _ => Throw (TypeError "")) ws_empty (mkReviewCache None None []) in
  let '(second, st2) :=
    reviewUserName (list_to_map [("review.unknown_user", "Unknown")])
      (fun _ => Ok "Ann") ws_empty st1 in
  first = i18n.t (list_to_map [("review.unknown_user", "Unknown")]) "review.unknown_user" []
  /\ _reviewUserName st1 = _reviewUserName (mkReviewCache None None [])
  /\ second = Ok (JStr "Ann")
  /\ _reviewUserName st2 = Some "Ann"
  /\ executed st2 = [] ++ ["git config user.name"; "git config user.name"].
Proof.
  apply (reviewUserName_retries_after_failure
           (list_to_map [("review.unknown_user", "Unknown")])
           (fun _ => Throw (TypeError "")) (fun _ => Ok "Ann") ws_empty
           (mkReviewCache None None []) (TypeError "") "Ann"); reflexivity.
Defined.

(** ** The country map *)

(** X14: [localeCountryMap] writes the configured entries into the shared
    default map, so they stay: in a later call a key reads as configured
    then, else as configured in the earlier call, else as the original
    default; an entry removed from the settings keeps its configured value. *)
Theorem localeCountryMap_overrides_persist
  (first second : option (gmap string string)) (DEFAULT : gmap string string)
  (key : string) :
  let '(_, default1) := localeCountryMap first DEFAULT in
  let '(result, default2) := localeCountryMap second default1 in
  result !! key
  = match default ∅ second !! key with
    | Some country => Some country
    | None =>
        match default ∅ first !! key with
        | Some country => Some country
        | None => DEFAULT !! key
        end
    end
  /\ default2 = result.
Proof.
  unfold localeCountryMap. split; [|done].
  rewrite !lookup_union.
  destruct (default ∅ second !! key), (default ∅ first !! key), (DEFAULT !! key); done.
Qed.

(** ** Loading the messages *)

(** X15: when the English file package.nls.json exists, [init] never
    fails for a missing file: it parses the file of the display language
    when the language is not ['en'] and that file exists, and the English
    file otherwise. *)
Theorem init_falls_back_to_english
  (language english : string) (files : gmap string string)
  (JSON_parse : string -> option (gmap string string)) :
  files !! "package.nls.json" = Some english ->
  let localized :=
    if String.eqb language "en" then None
    else files !! ("package.nls." +:+ language +:+ ".json") in
  init language files JSON_parse
  = match JSON_parse (default english localized) with
    | Some messages => inr messages
    | None => inl SyntaxError
    end.
Proof.
  intros Henglish localized. subst localized. unfold init, nls_name.
  set (name := "package.nls." +:+ language +:+ ".json").
  destruct (String.eqb language "en").
  - rewrite bool_decide_eq_true_2 by (by rewrite Henglish). cbn [negb].
    by rewrite Henglish.
  - destruct (files !! name) as [content|] eqn:Hfile.
    + rewrite bool_decide_eq_true_2 by done. cbn [negb]. by rewrite Hfile.
    + rewrite bool_decide_eq_false_2 by (by intros [? ?]). cbn [negb].
      by rewrite Henglish.
Qed.

Lemma init_falls_back_to_english_witness :
  init "fr" (list_to_map [("package.nls.json", "{}"); ("package.nls.de.json", "{}")])
       (fun _ => Some ∅)
  = inr ∅.
Proof.
  apply (init_falls_back_to_english "fr" "{}"
           (list_to_map [("package.nls.json", "{}"); ("package.nls.de.json", "{}")])
           (fun _ => Some ∅)).
  reflexivity.
Defined.

(** ** Hiding a locale and reading the list back *)

(** X16: when the workspace level does not define ignoredLocales, the list
    [ignoredLocales] reads after [toggleLocaleVisibility(l, true)] is the
    list read before without [l], and after
    [toggleLocaleVisibility(l, false)] it is the list read before with [l]
    appended. *)
Theorem toggleLocaleVisibility_read_back (ws : Workspace) (l : string) :
  workspace_level (ext ws) !! "ignoredLocales" = None ->
  ignoredLocales (toggleLocaleVisibility ws l (Some true)) = others l (ignoredLocales ws)
  /\ ignoredLocales (toggleLocaleVisibility ws l (Some false))
     = ignoredLocales ws ++ [JStr l].
Proof.
  intros Hfree.
  assert (Hback : forall stored,
             ignoredLocales (setConfig ws "ignoredLocales" (JArr stored) true) = stored).
  { intros stored. unfold ignoredLocales.
    by rewrite getConfig_after_write by (simpl; auto). }
  unfold toggleLocaleVisibility, set_ignoredLocales. simpl.
  by rewrite !Hback.
Qed.

Lemma toggleLocaleVisibility_read_back_witness :
  let ws := ws_user [("ignoredLocales", JArr [JStr "fr"; JStr "de"])] in
  ignoredLocales (toggleLocaleVisibility ws "fr" (Some true)) = others "fr" (ignoredLocales ws)
  /\ ignoredLocales (toggleLocaleVisibility ws "fr" (Some false))
     = ignoredLocales ws ++ [JStr "fr"].
Proof.
  intros ws. apply (toggleLocaleVisibility_read_back ws "fr"). reflexivity.
Defined.

(** ** The key pattern *)

(** X17: [regexKey] is never empty when the two built-in patterns are not:
    it is the configured regex.key when that is truthy, else the deprecated
    keyMatchRegex when that is truthy, else the built-in pattern that
    disablePathParsing selects. *)
Theorem regexKey_never_empty (KEY_REG_ALL KEY_REG_DEFAULT : string) (ws : Workspace) :
  KEY_REG_ALL <> "" ->
  KEY_REG_DEFAULT <> "" ->
  let current := getConfig ws "regex.key" None in
  let deprecated := getConfig ws "keyMatchRegex" None in
  let builtin :=
    if truthy (getConfig ws "disablePathParsing" None) then KEY_REG_ALL else KEY_REG_DEFAULT in
  regexKey KEY_REG_ALL KEY_REG_DEFAULT ws
  = (if truthy current then current
     else if truthy deprecated then deprecated
     else JStr builtin)
  /\ truthy (regexKey KEY_REG_ALL KEY_REG_DEFAULT ws) = true.
Proof.
  intros Hall Hdefault current deprecated builtin.
  unfold regexKey, js_or, disablePathParsing. rewrite truthy_coalesce_false.
  fold current deprecated builtin.
  destruct (truthy current) eqn:Hc; [done|].
  destruct (truthy deprecated) eqn:Hd; [done|].
  split; [done|]. subst builtin.
  destruct (truthy (getConfig ws "disablePathParsing" None)); simpl;
    [by rewrite (proj2 (String.eqb_neq _ _) Hall)
    |by rewrite (proj2 (String.eqb_neq _ _) Hdefault)].
Qed.

Lemma regexKey_never_empty_witness :
  regexKey ".*" "[\w.-]+" (ws_user [("disablePathParsing", JBool true)]) = JStr ".*"
  /\ truthy (regexKey ".*" "[\w.-]+" (ws_user [("disablePathParsing", JBool true)])) = true.
Proof.
  apply (regexKey_never_empty ".*" "[\w.-]+" (ws_user [("disablePathParsing", JBool true)]));
    discriminate.
Defined.
